(** * Sweep utilities of chi-tech: FLUDS beta pass and SweepBuffer

    A shallow embedding of
    - [CHI_TECH/ChiMesh/SweepUtilities/FLUDS/betapass.cc]
      ([SerializeCellInfo], [DeSerializeCellInfo], [InitializeBetaElements]);
    - [framework/mesh/SweepUtilities/SweepBuffer/sweepbuffer_general.cc]
      ([DoneSending], [ClearDownstreamBuffers], [Reset]).

    A C++ [int] is a [Z] whose arithmetic wraps to 32 bits; a [std::vector]
    is a [list]; an indexed access outside the vector (undefined behaviour in
    the source) makes the embedded function return [None]. *)

From Stdlib Require Import ZArith List Lia.
From stdpp Require Import base option list numbers.

Local Open Scope Z_scope.

(** ** Machine integers *)

Definition int_modulus : Z := 4294967296.
Definition int_half : Z := 2147483648.

(** Two's complement reduction of a mathematical integer to an [int]. *)
Definition wrap (z : Z) : Z := (z + int_half) mod int_modulus - int_half.

Definition in_int (z : Z) : Prop := - int_half <= z < int_half.

(** Unary minus and subtraction on [int]. *)
Definition int_neg (x : Z) : Z := wrap (- x).
Definition int_sub (x y : Z) : Z := wrap (x - y).

(** ** Vectors *)

Definition push_back {A} (v : list A) (x : A) : list A := v ++ [x].

(** [v[i]] read through an [int] index. *)
Definition at_index {A} (v : list A) (i : Z) : option A :=
  if decide (0 <= i) then v !! Z.to_nat i else None.

(** [g] applied in place to [v[i]]. *)
Definition modify_at {A} (g : A -> A) (i : Z) (v : list A) : option (list A) :=
  if decide (0 <= i < Z.of_nat (length v))
  then Some (alter g (Z.to_nat i) v)
  else None.

(** ** Compact views

    [typedef std::pair<int,std::vector<int>> CompactFaceView] and
    [typedef std::pair<int,std::vector<CompactFaceView>> CompactCellView]. *)

Abbreviation CompactFaceView := (Z * list Z)%type (only parsing).
Abbreviation CompactCellView := (Z * list CompactFaceView)%type (only parsing).

(** The value-initialised pairs made by [CompactFaceView()],
    [CompactCellView()] and [resize]. *)
Definition empty_face : CompactFaceView := (0, []).
Definition empty_cell : CompactCellView := (0, []).

(** ** SerializeCellInfo *)

(** Body of the loop over [f]: the marker, the face id, then the vertices. *)
Definition serialize_face (glob_index : Z) (face_indices : list Z)
    (fv : CompactFaceView) : list Z :=
  let face_indices := push_back face_indices glob_index in
  let face_indices := push_back face_indices (fst fv) in
  foldl push_back face_indices (snd fv).

(** Body of the loop over [c]. *)
Definition serialize_cell (face_indices : list Z) (cv : CompactCellView)
    : list Z :=
  let glob_index := int_sub (int_neg (fst cv)) 1 in
  foldl (serialize_face glob_index) face_indices (snd cv).

(** [face_indices] is passed by reference and appended to.  The loop bound
    [num_cells] is the vector's size converted to [int]. *)
Definition SerializeCellInfo (cell_views : list CompactCellView)
    (face_indices : list Z) (num_face_dofs : Z) : list Z :=
  let num_cells := wrap (Z.of_nat (length cell_views)) in
  let face_indices := push_back face_indices num_face_dofs in
  let face_indices := push_back face_indices num_cells in
  foldl serialize_cell face_indices (take (Z.to_nat num_cells) cell_views).

(** ** DeSerializeCellInfo *)

(** The local variables of the decoding loop other than the cursor [k],
    with the vector under construction.  The counters [c], [f], [v] and [k]
    stay below the size of the buffer, which the callers hold in an [int]:
    their increments are written without the wrap-around. *)
Record decoder : Type := Decoder {
  dc_cell_views : list CompactCellView;
  dc_last_cell : Z;
  dc_c : Z;
  dc_f : Z;
  dc_v : Z
}.

(** [cell_views[c].second[f]] updated in place by [g]. *)
Definition modify_face (g : CompactFaceView -> CompactFaceView) (c f : Z)
    (cell_views : list CompactCellView) : option (list CompactCellView) :=
  cv ← at_index cell_views c;
  faces ← modify_at g f (snd cv);
  modify_at (λ cv, (fst cv, faces)) c cell_views.

(** Branch [-entry != last_cell]: a new cell and its first face. *)
Definition new_cell (entry : Z) (st : decoder) : option decoder :=
  let views := push_back (dc_cell_views st) empty_cell in
  let c := dc_c st + 1 in
  views ← modify_at (λ cv, (int_sub (int_neg entry) 1, snd cv)) c views;
  views ← modify_at (λ cv, (fst cv, push_back (snd cv) empty_face)) c views;
  Some (Decoder views (int_neg entry) c 0 0).

(** Branch [-entry == last_cell]: one more face of the current cell. *)
Definition new_face (st : decoder) : option decoder :=
  views ← modify_at (λ cv, (fst cv, push_back (snd cv) empty_face))
            (dc_c st) (dc_cell_views st);
  Some (Decoder views (dc_last_cell st) (dc_c st) (dc_f st + 1) 0).

(** [cell_views[c].second[f].first] receives the entry at [k+1]. *)
Definition set_face_id (face_id : Z) (st : decoder) : option decoder :=
  views ← modify_face (λ fv, (face_id, snd fv)) (dc_c st) (dc_f st)
            (dc_cell_views st);
  Some (Decoder views (dc_last_cell st) (dc_c st) (dc_f st) (dc_v st)).

(** Branch of a non-negative entry: a vertex of the current face. *)
Definition push_vertex (entry : Z) (st : decoder) : option decoder :=
  views ← modify_face (λ fv, (fst fv, push_back (snd fv) entry))
            (dc_c st) (dc_f st) (dc_cell_views st);
  Some (Decoder views (dc_last_cell st) (dc_c st) (dc_f st) (dc_v st + 1)).

(** The [while (k < face_indices->size())] loop with its cursor.  Every
    turn moves the cursor forward, so [face_indices->size()] turns are
    enough: [fuel] counts them down.  A marker in the last position makes
    the source read past the end of the buffer. *)
Fixpoint decode_at (fuel : nat) (face_indices : list Z) (k : Z)
    (st : decoder) : option decoder :=
  if decide (k < Z.of_nat (length face_indices)) then
    match fuel with
    | O => None
    | S fuel =>
        entry ← at_index face_indices k;
        if decide (entry < 0) then
          st ← (if decide (int_neg entry ≠ dc_last_cell st)
                then new_cell entry st else new_face st);
          face_id ← at_index face_indices (k + 1);
          st ← set_face_id face_id st;
          decode_at fuel face_indices (k + 1 + 1) st
        else
          st ← push_vertex entry st;
          decode_at fuel face_indices (k + 1) st
    end
  else Some st.

(** The same loop as a recursion over the entries from [k] on
    ([decode_at_suffix] below relates the two). *)
Fixpoint decode (rest : list Z) (st : decoder) : option decoder :=
  match rest with
  | [] => Some st
  | entry :: rest' =>
      if decide (entry < 0) then
        st ← (if decide (int_neg entry ≠ dc_last_cell st)
              then new_cell entry st else new_face st);
        match rest' with
        | [] => None
        | face_id :: rest'' => st ← set_face_id face_id st; decode rest'' st
        end
      else
        st ← push_vertex entry st; decode rest' st
  end.

(** [cell_views] is passed by reference, [num_face_dofs] is the output
    parameter.  A negative [num_cells] converts to a size beyond
    [max_size()] and [resize] throws. *)
Definition DeSerializeCellInfo (cell_views : list CompactCellView)
    (face_indices : list Z) : option (list CompactCellView * Z) :=
  num_face_dofs ← face_indices !! 0%nat;
  num_cells ← face_indices !! 1%nat;
  if decide (0 <= num_cells) then
    let cell_views := resize (Z.to_nat num_cells) empty_cell cell_views in
    st ← decode_at (length face_indices) face_indices 2
           (Decoder cell_views (-1) (-1) (-1) (-1));
    Some (dc_cell_views st, num_face_dofs)
  else None.

(** ** SweepBuffer

    The members that [sweepbuffer_general.cc] names.  The FLUDS object behind
    [fluds_] and the communicator set are opaque to this file of the source:
    their types are the parameters [F] and [C]. *)

(** A request handle: [MPI_REQUEST_NULL], or an active request that the
    transport knows under [id]. *)
Inductive MPI_Request : Type :=
  | MPI_REQUEST_NULL
  | Request (id : nat).

Record SweepBuffer (F C : Type) : Type := mkSweepBuffer {
  fluds_ : F;
  num_groups_ : N;
  num_angles_ : N;
  comm_set : C;
  done_sending : bool;
  data_initialized : bool;
  upstream_data_initialized : bool;
  EAGER_LIMIT : Z;
  max_num_mess : Z;
  deplocI_message_request : list (list MPI_Request);
  prelocI_message_received : list (list bool);
  delayed_prelocI_message_received : list (list bool)
}.

Arguments mkSweepBuffer {F C}.
Arguments fluds_ {F C}.
Arguments num_groups_ {F C}.
Arguments num_angles_ {F C}.
Arguments comm_set {F C}.
Arguments done_sending {F C}.
Arguments data_initialized {F C}.
Arguments upstream_data_initialized {F C}.
Arguments EAGER_LIMIT {F C}.
Arguments max_num_mess {F C}.
Arguments deplocI_message_request {F C}.
Arguments prelocI_message_received {F C}.
Arguments delayed_prelocI_message_received {F C}.

Definition DoneSending {F C} (sb : SweepBuffer F C) : bool := done_sending sb.

(** [MPI_Test] against the transport's view [completed] of the active
    requests: a completed request is freed and its handle set to
    [MPI_REQUEST_NULL]; a null handle tests as complete. *)
Definition MPI_Test (completed : nat -> bool) (request : MPI_Request)
    : MPI_Request * bool :=
  match request with
  | MPI_REQUEST_NULL => (MPI_REQUEST_NULL, true)
  | Request id =>
      if completed id then (MPI_REQUEST_NULL, true) else (request, false)
  end.

(** The inner [for (auto& request : locI_requests)] loop; [false] is the
    early [return] at the first request found incomplete. *)
Fixpoint test_requests (completed : nat -> bool) (requests : list MPI_Request)
    : list MPI_Request * bool :=
  match requests with
  | [] => ([], true)
  | request :: requests' =>
      let '(request, message_sent) := MPI_Test completed request in
      if message_sent then
        let '(requests', all_sent) := test_requests completed requests' in
        (request :: requests', all_sent)
      else (request :: requests', false)
  end.

(** The outer [for (auto& locI_requests : deplocI_message_request)] loop. *)
Fixpoint test_all_requests (completed : nat -> bool)
    (message_request : list (list MPI_Request))
    : list (list MPI_Request) * bool :=
  match message_request with
  | [] => ([], true)
  | locI_requests :: message_request' =>
      let '(locI_requests, all_sent) := test_requests completed locI_requests in
      if all_sent then
        let '(message_request', all_sent) :=
          test_all_requests completed message_request' in
        (locI_requests :: message_request', all_sent)
      else (locI_requests :: message_request', false)
  end.

Section SweepBufferOps.
Context {F C : Type}.

(** [FLUDS::ClearSendPsi], defined outside this file of the source. *)
Variable ClearSendPsi : F -> F.

Definition ClearDownstreamBuffers (completed : nat -> bool)
    (sb : SweepBuffer F C) : SweepBuffer F C :=
  if done_sending sb then sb
  else
    let '(message_request, all_sent) :=
      test_all_requests completed (deplocI_message_request sb) in
    mkSweepBuffer
      (if all_sent then ClearSendPsi (fluds_ sb) else fluds_ sb)
      (num_groups_ sb) (num_angles_ sb) (comm_set sb)
      all_sent
      (data_initialized sb) (upstream_data_initialized sb)
      (EAGER_LIMIT sb) (max_num_mess sb)
      message_request
      (prelocI_message_received sb)
      (delayed_prelocI_message_received sb).

(** [message_flags.assign(message_flags.size(), false)] on every array. *)
Definition Reset (sb : SweepBuffer F C) : SweepBuffer F C :=
  mkSweepBuffer
    (fluds_ sb) (num_groups_ sb) (num_angles_ sb) (comm_set sb)
    false false false
    (EAGER_LIMIT sb) (max_num_mess sb)
    (deplocI_message_request sb)
    (map (λ message_flags : list bool,
            replicate (length message_flags) false)
         (prelocI_message_received sb))
    (map (λ message_flags : list bool,
            replicate (length message_flags) false)
         (delayed_prelocI_message_received sb)).

(** A polling scheduler: one call per observation of the transport. *)
Definition poll (calls : list (nat -> bool)) (sb : SweepBuffer F C)
    : SweepBuffer F C :=
  foldl (λ sb completed, ClearDownstreamBuffers completed sb) sb calls.
End SweepBufferOps.

(** ** InitializeBetaElements *)

(** What the function reads of the sweep-plane data structure: the four
    lists of partition indices, [spls->item_id], and for every cell of
    [grid->cells] whether its [Type()] is [CELL_NEWBASE]. *)
Record SPDS : Type := mkSPDS {
  location_dependencies : list Z;
  location_successors : list Z;
  delayed_location_dependencies : list Z;
  delayed_location_successors : list Z;
  spls_item_id : list Z;
  grid_cells_newbase : list bool
}.

(** The members of [FLUDS] that the function names. *)
Record FLUDS : Type := mkFLUDS {
  deplocI_cell_views : list (list CompactCellView);
  deplocI_face_dof_count : list Z;
  prelocI_cell_views : list (list CompactCellView);
  prelocI_face_dof_count : list Z;
  delayed_prelocI_cell_views : list (list CompactCellView);
  delayed_prelocI_face_dof_count : list Z
}.

(** The calls whose order matters outside the process, as they are issued.
    A request is named after the slot of [send_requests] that holds it. *)
Inductive event : Type :=
  | MPI_Isend (buf : list Z) (dest tag : Z) (request : nat)
  | MPI_Probe (source tag : Z)
  | MPI_Recv (source tag : Z)
  | MPI_Wait (request : nat)
  | ClearShrink_deplocI_cell_views (deplocI : nat)
  | ClearShrink_multi_face_indices.

(** The transport as the process sees it: for every source and tag the
    queue of messages that have arrived, and the calls made so far. *)
Record world : Type := mkWorld {
  inbox : Z -> Z -> list (list Z);
  trace : list event
}.

(** A computation that talks to the transport.  [None]: the call does not
    return (undefined behaviour, an exception, or a receive that blocks for
    ever). *)
Definition mpi (A : Type) : Type := world -> option (A * world).

Definition mpi_ret {A} (a : A) : mpi A := λ w, Some (a, w).

Definition mpi_bind {A B} (m : mpi A) (k : A -> mpi B) : mpi B :=
  λ w, match m w with
       | Some (a, w) => k a w
       | None => None
       end.

Notation "'let*' x ':=' m 'in' k" := (mpi_bind m (λ x, k))
  (at level 10, x name, m at level 100, k at level 200, only parsing).
Notation "'let*' ' pat ':=' m 'in' k" := (mpi_bind m (λ x, match x with pat => k end))
  (at level 10, pat pattern, m at level 100, k at level 200, only parsing).

(** An access that may be out of range. *)
Definition checked {A} (o : option A) : mpi A :=
  λ w, match o with Some a => Some (a, w) | None => None end.

Definition emit (e : event) : mpi unit :=
  λ w, Some (tt, mkWorld (inbox w) (trace w ++ [e])).

Definition int_add (x y : Z) : Z := wrap (x + y).

Definition pop_message (source tag : Z) (box : Z -> Z -> list (list Z))
    : Z -> Z -> list (list Z) :=
  λ s t, if decide (s = source /\ t = tag) then tail (box s t) else box s t.

(** [MPI_Probe], [MPI_Get_count], [resize] and [MPI_Recv] of one message:
    the probe blocks until a message from [source] with [tag] has arrived,
    the receive takes that message off the queue. *)
Definition probe_and_receive (source tag : Z) : mpi (list Z) :=
  λ w, match inbox w source tag with
       | [] => None
       | face_indices :: _ =>
           Some (face_indices,
                 mkWorld (pop_message source tag (inbox w))
                         (trace w ++ [MPI_Probe source tag;
                                      MPI_Recv source tag]))
       end.

(** [for (int i=0; i<locs.size(); i++) { int locJ = locs[i]; ... }] *)
Fixpoint for_each {St} (body : nat -> Z -> St -> mpi St) (i : nat)
    (locs : list Z) (s : St) : mpi St :=
  match locs with
  | [] => mpi_ret s
  | locJ :: locs' => let* s := body i locJ s in for_each body (S i) locs' s
  end.

(** The object and the two local vectors of the send loops.  A slot of
    [send_requests] is [None] while it holds the value-initialised handle. *)
Record frame : Type := mkFrame {
  this : FLUDS;
  send_requests : list (option MPI_Request);
  multi_face_indices : list (list Z)
}.

Definition set_deplocI_cell_views (v : list (list CompactCellView))
    (fl : FLUDS) : FLUDS :=
  mkFLUDS v (deplocI_face_dof_count fl)
          (prelocI_cell_views fl) (prelocI_face_dof_count fl)
          (delayed_prelocI_cell_views fl) (delayed_prelocI_face_dof_count fl).

(** The part the two send loops share, after the [continue] test. *)
Definition send_successor (tag_index : Z) (deplocI : nat) (locJ : Z)
    (fr : frame) : mpi frame :=
  let* cell_views := checked (deplocI_cell_views (this fr) !! deplocI) in
  let* num_face_dofs := checked (deplocI_face_dof_count (this fr) !! deplocI) in
  let* face_indices := checked (multi_face_indices fr !! deplocI) in
  let face_indices := SerializeCellInfo cell_views face_indices num_face_dofs in
  let* _ := emit (MPI_Isend face_indices locJ (int_add 101 tag_index) deplocI) in
  let* _ := emit (ClearShrink_deplocI_cell_views deplocI) in
  mpi_ret (mkFrame
             (set_deplocI_cell_views
                (<[deplocI := []]> (deplocI_cell_views (this fr))) (this fr))
             (<[deplocI := Some (Request deplocI)]> (send_requests fr))
             (<[deplocI := face_indices]> (multi_face_indices fr))).

(** [std::find(delayed_location_successors...) != end()] *)
Definition is_delayed_successor (spds : SPDS) (locJ : Z) : bool :=
  bool_decide (locJ ∈ delayed_location_successors spds).

Definition send_delayed (spds : SPDS) (tag_index : Z) (deplocI : nat)
    (locJ : Z) (fr : frame) : mpi frame :=
  if is_delayed_successor spds locJ
  then send_successor tag_index deplocI locJ fr
  else mpi_ret fr.

Definition send_ordinary (spds : SPDS) (tag_index : Z) (deplocI : nat)
    (locJ : Z) (fr : frame) : mpi frame :=
  if is_delayed_successor spds locJ
  then mpi_ret fr
  else send_successor tag_index deplocI locJ fr.

(** The body the two receive loops share, on the pair of vectors
    ([..._cell_views], [..._face_dof_count]) of the loop. *)
Definition receive_predecessor (tag_index : Z) (prelocI : nat) (locJ : Z)
    (s : list (list CompactCellView) * list Z)
    : mpi (list (list CompactCellView) * list Z) :=
  let* face_indices := probe_and_receive locJ (int_add 101 tag_index) in
  let* cell_views := checked (fst s !! prelocI) in
  let* _ := checked (snd s !! prelocI) in
  let* '(cell_views, num_face_dofs) :=
    checked (DeSerializeCellInfo cell_views face_indices) in
  mpi_ret (<[prelocI := cell_views]> (fst s),
           <[prelocI := num_face_dofs]> (snd s)).

(** [MPI_Wait(&send_requests[deplocI],MPI_STATUS_IGNORE)]: returns once the
    request has completed and leaves the null handle in the slot.  The
    value-initialised handle is not a request. *)
Definition wait_request (deplocI : nat) (_ : Z)
    (send_requests : list (option MPI_Request))
    : mpi (list (option MPI_Request)) :=
  let* slot := checked (send_requests !! deplocI) in
  match slot with
  | None => checked None
  | Some _ =>
      let* _ := emit (MPI_Wait deplocI) in
      mpi_ret (<[deplocI := Some MPI_REQUEST_NULL]> send_requests)
  end.

Section BetaPass.
(** [FLUDS::NonLocalIncidentMapping], defined outside this file of the
    source: a member function that works on the object from the cell and
    the sweep-plane data structure, without communication. *)
Variable NonLocalIncidentMapping : Z -> SPDS -> FLUDS -> FLUDS.

(** Body of the loop over [csoi]. *)
Definition map_cell (spds : SPDS) (_ : nat) (cell_g_index : Z) (fl : FLUDS)
    : mpi FLUDS :=
  let* newbase := checked (at_index (grid_cells_newbase spds) cell_g_index) in
  if newbase : bool
  then mpi_ret (NonLocalIncidentMapping cell_g_index spds fl)
  else mpi_ret fl.

Definition InitializeBetaElements (spds : SPDS) (tag_index : Z) (fl : FLUDS)
    : mpi FLUDS :=
  (* Send delayed successor information *)
  let num_successors := length (location_successors spds) in
  let fr := mkFrame fl (resize num_successors None [])
                    (replicate num_successors []) in
  let* fr := for_each (send_delayed spds tag_index) 0
               (location_successors spds) fr in
  let fl := this fr in
  (* Receive delayed predecessor information *)
  let num_delayed := length (delayed_location_dependencies spds) in
  let* '(delayed_views, delayed_count) :=
    for_each (receive_predecessor tag_index) 0
      (delayed_location_dependencies spds)
      (resize num_delayed [] (delayed_prelocI_cell_views fl),
       resize num_delayed 0 (delayed_prelocI_face_dof_count fl)) in
  (* Receive predecessor information *)
  let num_dependencies := length (location_dependencies spds) in
  let* '(views, count) :=
    for_each (receive_predecessor tag_index) 0
      (location_dependencies spds)
      (resize num_dependencies [] (prelocI_cell_views fl),
       resize num_dependencies 0 (prelocI_face_dof_count fl)) in
  let fl := mkFLUDS (deplocI_cell_views fl) (deplocI_face_dof_count fl)
                    views count delayed_views delayed_count in
  (* Send successor information *)
  let* fr := for_each (send_ordinary spds tag_index) 0
               (location_successors spds)
               (mkFrame fl (send_requests fr) (multi_face_indices fr)) in
  (* Verify sends completed *)
  let* _ := for_each wait_request 0 (location_successors spds)
              (send_requests fr) in
  let* _ := emit ClearShrink_multi_face_indices in
  (* Loop over cells in sorder *)
  let* fl := for_each (map_cell spds) 0 (spls_item_id spds) (this fr) in
  (* Clear unneccesary data *)
  mpi_ret (mkFLUDS [] (deplocI_face_dof_count fl)
                   [] (prelocI_face_dof_count fl)
                   [] (delayed_prelocI_face_dof_count fl)).
End BetaPass.

(** ** The wire format, for the statements below *)

(** The marker the serializer writes for a cell. *)
Definition marker (global_id : Z) : Z := int_sub (int_neg global_id) 1.

(** One face group of the buffer: marker, face id, vertex ids. *)
Abbreviation face_group := (Z * Z * list Z)%type (only parsing).

Definition encode_group (g : face_group) : list Z :=
  let '(m, face_id, vertices) := g in m :: face_id :: vertices.

Definition groups_of_cell (cv : CompactCellView) : list face_group :=
  map (λ fv : CompactFaceView, (marker (fst cv), fst fv, snd fv)) (snd cv).

Definition groups_of (cell_views : list CompactCellView) : list face_group :=
  flat_map groups_of_cell cell_views.

(** A group as an [int] buffer can hold it and the decoder can tell it
    apart: the marker is a negative [int], the vertex ids are not negative. *)
Definition well_formed_group (g : face_group) : Prop :=
  let '(m, _, vertices) := g in
  m < 0 /\ in_int m /\ Forall (λ vertex, 0 <= vertex) vertices.

(** What a reader of the format makes of one more group, given the cells
    read so far (latest first) and the negated marker of the latest one. *)
Definition absorb (s : list CompactCellView * Z) (g : face_group)
    : list CompactCellView * Z :=
  let '(m, face_id, vertices) := g in
  if decide (int_neg m ≠ snd s)
  then ((int_sub (int_neg m) 1, [(face_id, vertices)]) :: fst s, int_neg m)
  else match fst s with
       | (global_id, faces) :: cells =>
           ((global_id, faces ++ [(face_id, vertices)]) :: cells, snd s)
       | [] => s
       end.

Definition cells_of (groups : list face_group) : list CompactCellView :=
  reverse (fst (foldl absorb ([], -1) groups)).

(** Views that the format can carry unchanged. *)
Definition canonical_cell (cv : CompactCellView) : Prop :=
  0 <= fst cv < int_half /\ snd cv ≠ [] /\
  Forall (λ fv : CompactFaceView, Forall (λ vertex, 0 <= vertex) (snd fv))
         (snd cv).

Fixpoint adjacent_distinct (ids : list Z) : Prop :=
  match ids with
  | a :: (b :: _) as ids' => a ≠ b /\ adjacent_distinct ids'
  | _ => True
  end.

(** The decoder while it reads a face: [cells] are the cells completed so
    far (latest first), [(global_id, faces ++ [fv])] is the cell under
    construction, [n] value-initialised entries follow. *)
Definition at_face (n : nat) (cells : list CompactCellView) (global_id : Z)
    (faces : list CompactFaceView) (fv : CompactFaceView) (last v : Z)
    : decoder :=
  Decoder (reverse cells ++ (global_id, faces ++ [fv]) :: replicate n empty_cell)
          last (Z.of_nat (length cells)) (Z.of_nat (length faces)) v.

(** The decoder's variables against what a reader of the format has. *)
Inductive represents (n : nat)
    : list CompactCellView * Z -> decoder -> Prop :=
  | represents_start :
      represents n ([], -1)
                 (Decoder (replicate n empty_cell) (-1) (-1) (-1) (-1))
  | represents_face cells global_id faces fv last v :
      represents n ((global_id, faces ++ [fv]) :: cells, last)
                 (at_face n cells global_id faces fv last v).

(** The number of markers that differ, negated, from the one before them;
    [last] stands for the marker before the first. *)
Fixpoint marker_changes (last : Z) (markers : list Z) : nat :=
  match markers with
  | [] => 0
  | m :: markers' =>
      ((if decide (int_neg m ≠ last) then 1 else 0)
       + marker_changes (int_neg m) markers')%nat
  end.

Definition marker_of (g : face_group) : Z := fst (fst g).

(** Face ids are store locations, hence not negative. *)
Definition face_ids_nonnegative (cv : CompactCellView) : Prop :=
  Forall (λ fv : CompactFaceView, 0 <= fst fv) (snd cv).

(** What a reader of the format knows between two groups: before the first
    group [last] has its initial value, afterwards the id of the latest cell
    is the one its marker stands for. *)
Definition reader_invariant (s : list CompactCellView * Z) : Prop :=
  match fst s with
  | [] => snd s = -1
  | (global_id, _) :: _ => global_id = int_sub (snd s) 1
  end.

(** The markers at which a reader of the format begins a cell: those that
    differ from the marker before them; [last] is the marker before the
    first one, if there is one. *)
Fixpoint marker_runs (last : option Z) (markers : list Z) : list Z :=
  match markers with
  | [] => []
  | m :: markers' =>
      if decide (last = Some m) then marker_runs (Some m) markers'
      else m :: marker_runs (Some m) markers'
  end.

(** The groups a list of cells stands for when the marker of a cell with
    id [global_id] is the number [-global_id-1]: one group per face, cell
    after cell. *)
Definition groups_with_ids (cells : list CompactCellView) : list face_group :=
  flat_map (λ cell : CompactCellView,
              map (λ fv : CompactFaceView, (- fst cell - 1, fst fv, snd fv))
                  (snd cell))
           cells.

(** The reader after a group with marker [m]: the cell it works on has the
    id [-m-1]; before the first group there is no such cell. *)
Definition reader_after (last : option Z) (s : list CompactCellView * Z)
    : Prop :=
  match last with
  | None => snd s = -1
  | Some m =>
      m < 0 /\ in_int m /\ snd s = int_neg m
      /\ exists faces cells, fst s = (- m - 1, faces) :: cells
  end.

(** ** Polling, for the statements below *)

(** A request that [MPI_Test] reports as sent under [completed]. *)
Definition request_complete (completed : nat -> bool) (request : MPI_Request)
    : Prop :=
  match request with
  | MPI_REQUEST_NULL => True
  | Request id => completed id = true
  end.

(** Every outstanding send of the buffer has completed. *)
Definition sends_complete {F C} (completed : nat -> bool)
    (sb : SweepBuffer F C) : Prop :=
  Forall (Forall (request_complete completed)) (deplocI_message_request sb).

(** A run of calls each of which finds some send incomplete. *)
Fixpoint polls_incomplete {F C} (ClearSendPsi : F -> F)
    (sb : SweepBuffer F C) (calls : list (nat -> bool)) : Prop :=
  match calls with
  | [] => True
  | completed :: calls' =>
      ¬ sends_complete completed sb
      /\ polls_incomplete ClearSendPsi
           (ClearDownstreamBuffers ClearSendPsi completed sb) calls'
  end.

(** ** The beta pass, for the statements below *)

(** What a send loop finds at index [deplocI]: the views, the request slot
    and the transfer buffer. *)
Definition frame_slot (fr : frame) (deplocI : nat)
    : option (list CompactCellView) * option (option MPI_Request)
      * option (list Z) :=
  (deplocI_cell_views (this fr) !! deplocI,
   send_requests fr !! deplocI,
   multi_face_indices fr !! deplocI).

(** The buffer a send loop would send from index [deplocI] of a frame. *)
Definition frame_buffer (fr : frame) (deplocI : nat) : list Z :=
  SerializeCellInfo
    (default [] (deplocI_cell_views (this fr) !! deplocI))
    (default [] (multi_face_indices fr !! deplocI))
    (default 0 (deplocI_face_dof_count (this fr) !! deplocI)).

(** The boundary data of the object for its successor number [deplocI]. *)
Definition sent_buffer (fl : FLUDS) (deplocI : nat) : list Z :=
  SerializeCellInfo (default [] (deplocI_cell_views fl !! deplocI)) []
                    (default 0 (deplocI_face_dof_count fl !! deplocI)).

(** The calls of a send loop that sends to the [selected] successors. *)
Fixpoint send_phase (selected : Z -> bool) (tag : Z) (buffer : nat -> list Z)
    (deplocI : nat) (locs : list Z) : list event :=
  match locs with
  | [] => []
  | locJ :: locs' =>
      (if selected locJ
       then [MPI_Isend (buffer deplocI) locJ tag deplocI;
             ClearShrink_deplocI_cell_views deplocI]
       else [])
      ++ send_phase selected tag buffer (S deplocI) locs'
  end.

(** The calls of a receive loop. *)
Definition receive_phase (tag : Z) (locs : list Z) : list event :=
  flat_map (λ locJ, [MPI_Probe locJ tag; MPI_Recv locJ tag]) locs.

(** The calls of the loop that waits for the sends. *)
Definition wait_phase (num_successors : nat) : list event :=
  map MPI_Wait (seq 0 num_successors).

Definition after_receives (tag : Z) (locs : list Z)
    (box : Z -> Z -> list (list Z)) : Z -> Z -> list (list Z) :=
  foldl (λ box locJ, pop_message locJ tag box) box locs.

(** For every receive, in the order of the receives, a message has arrived
    that the decoder accepts. *)
Fixpoint messages_ready (tag : Z) (locs : list Z)
    (box : Z -> Z -> list (list Z)) : Prop :=
  match locs with
  | [] => True
  | locJ :: locs' =>
      (exists face_indices rest,
         box locJ tag = face_indices :: rest
         /\ is_Some (DeSerializeCellInfo [] face_indices))
      /\ messages_ready tag locs' (pop_message locJ tag box)
  end.

(** The state in which a sweep enters [InitializeBetaElements]: outgoing
    views and face-dof counts for every successor, no incoming views yet,
    the predecessors' messages under way, and sweep-order items that are
    cells of the grid. *)
Definition ready_for_beta (spds : SPDS) (tag_index : Z) (fl : FLUDS)
    (w : world) : Prop :=
  (length (location_successors spds) <= length (deplocI_cell_views fl))%nat
  /\ (length (location_successors spds)
      <= length (deplocI_face_dof_count fl))%nat
  /\ prelocI_cell_views fl = []
  /\ delayed_prelocI_cell_views fl = []
  /\ messages_ready (int_add 101 tag_index)
       (delayed_location_dependencies spds ++ location_dependencies spds)
       (inbox w)
  /\ Forall (λ cell_g_index,
               is_Some (at_index (grid_cells_newbase spds) cell_g_index))
            (spls_item_id spds).

(** The destinations of the sends of a trace, in order. *)
Definition sends_to (tr : list event) : list Z :=
  flat_map (λ e, match e with
                 | MPI_Isend _ dest _ _ => [dest]
                 | _ => []
                 end) tr.

(** Every send is followed at once by the release of the views it sent. *)
Fixpoint clear_follows_send (tr : list event) : Prop :=
  match tr with
  | [] => True
  | MPI_Isend _ _ _ request :: tr' =>
      match tr' with
      | ClearShrink_deplocI_cell_views deplocI :: tr'' =>
          deplocI = request /\ clear_follows_send tr''
      | _ => False
      end
  | _ :: tr' => clear_follows_send tr'
  end.

(** The calls of one beta pass, phase by phase. *)
Definition delayed_send_phase (spds : SPDS) (tag_index : Z) (fl : FLUDS)
    : list event :=
  send_phase (is_delayed_successor spds) (int_add 101 tag_index)
             (sent_buffer fl) 0 (location_successors spds).

Definition ordinary_send_phase (spds : SPDS) (tag_index : Z) (fl : FLUDS)
    : list event :=
  send_phase (λ locJ, negb (is_delayed_successor spds locJ))
             (int_add 101 tag_index) (sent_buffer fl) 0
             (location_successors spds).

Definition beta_trace (spds : SPDS) (tag_index : Z) (fl : FLUDS)
    : list event :=
  delayed_send_phase spds tag_index fl
  ++ receive_phase (int_add 101 tag_index) (delayed_location_dependencies spds)
  ++ receive_phase (int_add 101 tag_index) (location_dependencies spds)
  ++ ordinary_send_phase spds tag_index fl
  ++ wait_phase (length (location_successors spds))
  ++ [ClearShrink_multi_face_indices].

(** The requests posted by the sends of a trace, in order. *)
Definition posted_requests (tr : list event) : list nat :=
  flat_map (λ e, match e with
                 | MPI_Isend _ _ _ request => [request]
                 | _ => []
                 end) tr.

(** ** A partition with three successors and two predecessors

    Successors 3, 4 and 5, of which 4 is delayed; the delayed predecessor 9
    and the ordinary predecessor 7 have each sent their message. *)
Definition example_spds : SPDS :=
  mkSPDS [7] [3; 4; 5] [9] [4] [0; 1] [true; false].

Definition example_fluds : FLUDS :=
  mkFLUDS [[(5, [(0, [1; 2]); (1, [3; 4])])]; [(2, [(0, [1])])]; []]
          [8; 9; 10] [] [] [] [].

Definition example_world : world :=
  mkWorld (λ source tag,
             if decide (tag = 101) then
               if decide (source = 7) then [[4; 1; -3; 0; 1; 2]]
               else if decide (source = 9) then [[3; 0]]
               else []
             else [])
          [].

(** ** Further notions for the serializer and the decoder *)

(** The number of entries the serializer writes for a cell: two per face,
    and one per vertex. *)
Definition encoded_size (cv : CompactCellView) : nat :=
  sum_list (map (λ fv : CompactFaceView, (2 + length (snd fv))%nat) (snd cv)).



(** ** Further notions for the sweep buffer *)

(** The request handles after every one of them has tested as sent. *)
Definition all_null (message_request : list (list MPI_Request))
    : list (list MPI_Request) :=
  map (map (λ _ : MPI_Request, MPI_REQUEST_NULL)) message_request.

(** ** Further notions for the beta pass *)

(** The messages the receives of a loop take, in the order of the
    receives: each time the one at the head of its queue. *)
Fixpoint arrivals (tag : Z) (locs : list Z) (box : Z -> Z -> list (list Z))
    : list (list Z) :=
  match locs with
  | [] => []
  | locJ :: locs' =>
      match box locJ tag with
      | [] => []
      | face_indices :: _ =>
          face_indices :: arrivals tag locs' (pop_message locJ tag box)
      end
  end.

(** A message and what the decoder makes of it in an empty vector. *)
Definition decodes_to (face_indices : list Z)
    (result : list CompactCellView * Z) : Prop :=
  DeSerializeCellInfo [] face_indices = Some result
  /\ face_indices !! 0%nat = Some (snd result).

(** The items of the sweep order whose cell is of type [CELL_NEWBASE]. *)
Definition newbase_items (spds : SPDS) (items : list Z) : list Z :=
  filter (λ cell_g_index,
            at_index (grid_cells_newbase spds) cell_g_index = Some true)
         items.

(** The last statements of [InitializeBetaElements]: the three containers
    of views swapped for empty ones. *)
Definition without_views (fl : FLUDS) : FLUDS :=
  mkFLUDS [] (deplocI_face_dof_count fl)
          [] (prelocI_face_dof_count fl)
          [] (delayed_prelocI_face_dof_count fl).

(** A call of the pass that names its peer, its tag and its data as the
    pass has them. *)
Definition well_addressed (spds : SPDS) (tag_index : Z) (fl : FLUDS)
    (e : event) : Prop :=
  match e with
  | MPI_Isend buf dest tag request =>
      tag = int_add 101 tag_index
      /\ location_successors spds !! request = Some dest
      /\ buf = sent_buffer fl request
  | MPI_Probe source tag | MPI_Recv source tag =>
      tag = int_add 101 tag_index
      /\ source ∈ delayed_location_dependencies spds
                   ++ location_dependencies spds
  | MPI_Wait request | ClearShrink_deplocI_cell_views request =>
      (request < length (location_successors spds))%nat
  | ClearShrink_multi_face_indices => True
  end.

(** ** SpatialDiscretization_FV::GetNumGlobalDOFs

    From [framework/math/SpatialDiscretization/FiniteVolume/fv_05_utils.cc].
    The arguments are what [GetTotalUnknownStructureSize()] and
    [GetGlobalNumberOfCells()] return; the function stores them in an
    [unsigned int] and in an [int] and multiplies the two, which C++ does in
    [unsigned int]. *)

(** Conversion to [unsigned int]. *)
Definition to_unsigned_int (z : Z) : Z := z mod int_modulus.

Definition GetNumGlobalDOFs (total_unknown_structure_size : Z)
    (global_number_of_cells : Z) : Z :=
  let N := to_unsigned_int total_unknown_structure_size in
  let num_globl_cells := wrap global_number_of_cells in
  to_unsigned_int (to_unsigned_int num_globl_cells * N).

(** * Properties *)

Example serialize_two_faces :
  SerializeCellInfo [(5, [(0, [1; 2]); (1, [3; 4])])] [] 8
  = [8; 1; -6; 0; 1; 2; -6; 1; 3; 4].
Proof. reflexivity. Qed.

Example deserialize_two_faces :
  DeSerializeCellInfo [] [8; 1; -6; 0; 1; 2; -6; 1; 3; 4]
  = Some ([(5, [(0, [1; 2]); (1, [3; 4])]); (0, [])], 8).
Proof. vm_compute. reflexivity. Qed.

(** ** Machine integers *)

Lemma wrap_in_int z : in_int z -> wrap z = z.
Proof.
  unfold in_int, wrap, int_half, int_modulus. intros Hz.
  Z.div_mod_to_equations. lia.
Qed.

Lemma wrap_is_int z : in_int (wrap z).
Proof.
  unfold in_int, wrap, int_half, int_modulus.
  Z.div_mod_to_equations. lia.
Qed.

Lemma marker_in_int gid : in_int gid -> marker gid = - gid - 1.
Proof.
  unfold marker, int_sub, int_neg, in_int, wrap, int_half, int_modulus.
  intros Hz. Z.div_mod_to_equations. lia.
Qed.

Lemma marker_negative gid : 0 <= gid < int_half -> marker gid < 0.
Proof.
  intros Hz. rewrite marker_in_int; unfold in_int, int_half in *; lia.
Qed.

Lemma marker_is_int gid : in_int (marker gid).
Proof. apply wrap_is_int. Qed.

(** The decoder's [-entry-1] undoes the marker. *)
Lemma unmarker_marker gid :
  in_int gid -> int_sub (int_neg (marker gid)) 1 = gid.
Proof.
  intros Hz. rewrite marker_in_int by done. revert Hz.
  unfold int_sub, int_neg, in_int, wrap, int_half, int_modulus.
  intros Hz. Z.div_mod_to_equations. lia.
Qed.

Lemma unmarker_entry m :
  in_int m -> int_sub (int_neg m) 1 = - m - 1.
Proof.
  unfold int_sub, int_neg, in_int, wrap, int_half, int_modulus.
  intros Hz. Z.div_mod_to_equations. lia.
Qed.

(** No marker negates to the initial value of [last_cell]. *)
Lemma int_neg_marker_not_initial m : m < 0 -> in_int m -> int_neg m ≠ -1.
Proof.
  unfold int_neg, in_int, wrap, int_half, int_modulus.
  intros Hm Hz. Z.div_mod_to_equations. lia.
Qed.

Lemma int_neg_inj a b : in_int a -> in_int b -> int_neg a = int_neg b -> a = b.
Proof.
  unfold int_neg, in_int, wrap, int_half, int_modulus.
  intros Ha Hb. Z.div_mod_to_equations. lia.
Qed.

Lemma marker_inj a b : in_int a -> in_int b -> marker a = marker b -> a = b.
Proof.
  intros Ha Hb. rewrite !marker_in_int by done. lia.
Qed.

(** ** SerializeCellInfo as a flat encoding *)

Lemma foldl_push_back {A} (xs buf : list A) : foldl push_back buf xs = buf ++ xs.
Proof.
  revert buf. induction xs as [|x xs IH]; intros buf; simpl.
  - by rewrite app_nil_r.
  - rewrite IH. unfold push_back. by rewrite <- app_assoc.
Qed.

Lemma serialize_face_encode m buf fv :
  serialize_face m buf fv = buf ++ encode_group (m, fst fv, snd fv).
Proof.
  unfold serialize_face. rewrite foldl_push_back. unfold push_back.
  by rewrite <- !app_assoc.
Qed.

Lemma serialize_cell_encode buf cv :
  serialize_cell buf cv = buf ++ flat_map encode_group (groups_of_cell cv).
Proof.
  unfold serialize_cell, groups_of_cell. fold (marker (fst cv)).
  generalize (marker (fst cv)) as m. intros m. revert buf.
  induction (snd cv) as [|fv fvs IH]; intros buf; simpl.
  - by rewrite app_nil_r.
  - rewrite IH, serialize_face_encode. simpl. by rewrite <- !app_assoc.
Qed.

Lemma foldl_serialize_cell views buf :
  foldl serialize_cell buf views
  = buf ++ flat_map encode_group (groups_of views).
Proof.
  revert buf. induction views as [|cv views IH]; intros buf; simpl.
  - by rewrite app_nil_r.
  - rewrite IH, serialize_cell_encode. unfold groups_of. simpl.
    rewrite flat_map_app. by rewrite <- !app_assoc.
Qed.

Lemma SerializeCellInfo_encode views buf num_face_dofs :
  Z.of_nat (length views) < int_half ->
  SerializeCellInfo views buf num_face_dofs
  = buf ++ num_face_dofs :: Z.of_nat (length views)
        :: flat_map encode_group (groups_of views).
Proof.
  intros Hlen. unfold SerializeCellInfo.
  rewrite wrap_in_int by (unfold in_int, int_half in *; lia).
  rewrite Nat2Z.id, firstn_all, foldl_serialize_cell.
  unfold push_back. by rewrite <- !app_assoc.
Qed.

(** ** The decoding loop *)

Lemma modify_at_middle {A} (g : A -> A) (l1 l2 : list A) (x : A) :
  modify_at g (Z.of_nat (length l1)) (l1 ++ x :: l2) = Some (l1 ++ g x :: l2).
Proof.
  unfold modify_at. rewrite decide_True.
  - rewrite Nat2Z.id. f_equal.
    replace (length l1) with (length l1 + 0)%nat at 1 by lia.
    by rewrite alter_app_r.
  - rewrite length_app. simpl. lia.
Qed.

Lemma modify_at_head {A} (g : A -> A) (x : A) (l : list A) :
  modify_at g 0 (x :: l) = Some (g x :: l).
Proof. apply (modify_at_middle g [] l x). Qed.

Lemma at_index_middle {A} (l1 l2 : list A) (x : A) :
  at_index (l1 ++ x :: l2) (Z.of_nat (length l1)) = Some x.
Proof.
  unfold at_index. rewrite decide_True by lia.
  rewrite Nat2Z.id. apply list_lookup_middle. done.
Qed.

Lemma modify_face_middle g (l1 l2 : list CompactCellView) gid
    (faces : list CompactFaceView) fv :
  modify_face g (Z.of_nat (length l1)) (Z.of_nat (length faces))
              (l1 ++ (gid, faces ++ [fv]) :: l2)
  = Some (l1 ++ (gid, faces ++ [g fv]) :: l2).
Proof.
  unfold modify_face. rewrite at_index_middle. simpl.
  rewrite modify_at_middle. simpl. by rewrite modify_at_middle.
Qed.

Lemma push_vertex_at_face n cells gid faces face_id vertices last v entry :
  push_vertex entry (at_face n cells gid faces (face_id, vertices) last v)
  = Some (at_face n cells gid faces (face_id, vertices ++ [entry]) last (v + 1)).
Proof.
  unfold push_vertex, at_face. simpl.
  rewrite <- (length_reverse cells), modify_face_middle. done.
Qed.

Lemma set_face_id_at_face n cells gid faces fv last v face_id :
  set_face_id face_id (at_face n cells gid faces fv last v)
  = Some (at_face n cells gid faces (face_id, snd fv) last v).
Proof.
  unfold set_face_id, at_face. simpl.
  rewrite <- (length_reverse cells), modify_face_middle. done.
Qed.

Lemma new_face_at_face n cells gid faces fv last v :
  new_face (at_face n cells gid faces fv last v)
  = Some (at_face n cells gid (faces ++ [fv]) empty_face last 0).
Proof.
  unfold new_face, at_face. simpl.
  rewrite <- (length_reverse cells), modify_at_middle. simpl.
  unfold push_back. rewrite length_app. simpl.
  do 2 f_equal. lia.
Qed.

Lemma new_cell_at_face n cells gid faces fv last v entry :
  new_cell entry (at_face n cells gid faces fv last v)
  = Some (at_face n ((gid, faces ++ [fv]) :: cells)
                  (int_sub (int_neg entry) 1) [] empty_face (int_neg entry) 0).
Proof.
  unfold new_cell, at_face, push_back. simpl.
  rewrite reverse_cons, <- !app_assoc. simpl.
  rewrite <- replicate_cons_app.
  replace (Z.of_nat (length cells) + 1)
    with (Z.of_nat (length (reverse cells ++ [(gid, faces ++ [fv])])))
    by (rewrite length_app, length_reverse; simpl; lia).
  assert (reverse cells ++ (gid, faces ++ [fv])
                           :: empty_cell :: replicate n empty_cell
          = (reverse cells ++ [(gid, faces ++ [fv])])
              ++ empty_cell :: replicate n empty_cell) as ->
    by (by rewrite <- app_assoc).
  rewrite modify_at_middle. simpl.
  rewrite modify_at_middle. simpl.
  rewrite length_app, length_reverse, <- app_assoc. simpl.
  do 2 f_equal. lia.
Qed.

Lemma new_cell_start n f v entry :
  new_cell entry (Decoder (replicate n empty_cell) (-1) (-1) f v)
  = Some (at_face n [] (int_sub (int_neg entry) 1) [] empty_face
                  (int_neg entry) 0).
Proof.
  unfold new_cell, at_face, push_back. simpl.
  rewrite <- replicate_cons_app.
  change (-1 + 1) with 0. by rewrite !modify_at_head.
Qed.

(** The vertex entries of a group go to the face under construction. *)
Lemma decode_vertices vertices :
  Forall (λ vertex, 0 <= vertex) vertices ->
  forall rest n cells gid faces face_id vs last v,
    decode (vertices ++ rest)
           (at_face n cells gid faces (face_id, vs) last v)
    = decode rest
        (at_face n cells gid faces (face_id, vs ++ vertices) last
                 (v + Z.of_nat (length vertices))).
Proof.
  induction 1 as [|entry vertices Hentry _ IH]; intros; simpl.
  - by rewrite app_nil_r, Z.add_0_r.
  - simpl in Hentry. destruct (decide (entry < 0)); [lia|].
    rewrite push_vertex_at_face. simpl.
    rewrite IH, <- app_assoc. simpl.
    do 2 f_equal. lia.
Qed.

(** One group moves the decoder as [absorb] moves a reader of the format. *)
Lemma decode_group n s st g rest :
  represents n s st -> well_formed_group g ->
  exists st', decode (encode_group g ++ rest) st = decode rest st'
              /\ represents n (absorb s g) st'.
Proof.
  intros Hrep Hwf. destruct g as [[m face_id] vertices].
  destruct Hwf as (Hneg & Hint & Hverts).
  unfold absorb. cbn [encode_group app decode fst snd].
  destruct (decide (m < 0)); [|lia].
  destruct Hrep as [|cells gid faces fv last v]; cbn [dc_last_cell at_face fst snd].
  - rewrite !decide_True by (by apply int_neg_marker_not_initial).
    rewrite new_cell_start. cbn [mbind option_bind].
    rewrite set_face_id_at_face. cbn [mbind option_bind snd empty_face].
    rewrite decode_vertices by done.
    eexists. split; [done|]. apply (represents_face n [] _ []).
  - destruct (decide (int_neg m ≠ last)) as [Hnew|Hsame].
    + rewrite new_cell_at_face. cbn [mbind option_bind].
      rewrite set_face_id_at_face. cbn [mbind option_bind snd empty_face].
      rewrite decode_vertices by done.
      eexists. split; [done|]. apply (represents_face n _ _ []).
    + rewrite new_face_at_face. cbn [mbind option_bind].
      rewrite set_face_id_at_face. cbn [mbind option_bind snd empty_face].
      rewrite decode_vertices by done.
      eexists. split; [done|]. apply represents_face.
Qed.

Lemma decode_groups n groups :
  Forall well_formed_group groups ->
  forall s st, represents n s st ->
    exists st', decode (flat_map encode_group groups) st = Some st'
                /\ represents n (foldl absorb s groups) st'.
Proof.
  induction 1 as [|g groups Hg _ IH]; intros s st Hrep; simpl.
  - eauto.
  - destruct (decode_group n s st g (flat_map encode_group groups) Hrep Hg)
      as (st1 & -> & Hrep1).
    apply IH, Hrep1.
Qed.

Lemma represents_cell_views n s st :
  represents n s st ->
  dc_cell_views st = reverse (fst s) ++ replicate n empty_cell.
Proof.
  destruct 1; simpl; [done|].
  by rewrite reverse_cons, <- app_assoc.
Qed.

Lemma at_index_nat {A} (l : list A) (i : Z) :
  0 <= i -> at_index l i = l !! Z.to_nat i.
Proof. intros Hi. unfold at_index. by destruct (decide (0 <= i)). Qed.

(** The loop with its cursor reads what the recursion over the remaining
    entries reads. *)
Lemma decode_at_suffix fuel face_indices : forall k st,
  0 <= k ->
  (length face_indices - Z.to_nat k <= fuel)%nat ->
  decode_at fuel face_indices k st
  = decode (drop (Z.to_nat k) face_indices) st.
Proof.
  induction fuel as [|fuel IH]; intros k st Hk Hfuel.
  - cbn [decode_at].
    destruct (decide (k < Z.of_nat (length face_indices))); [lia|].
    by rewrite drop_ge by lia.
  - cbn [decode_at].
    destruct (decide (k < Z.of_nat (length face_indices))) as [Hin|Hout];
      [|by rewrite drop_ge by lia].
    destruct (lookup_lt_is_Some_2 face_indices (Z.to_nat k)) as [entry Hentry];
      [lia|].
    rewrite !at_index_nat by lia.
    rewrite Hentry, (drop_S _ _ _ Hentry). cbn [mbind option_bind decode].
    destruct (decide (entry < 0)).
    + destruct (if decide (int_neg entry ≠ dc_last_cell st)
                then new_cell entry st else new_face st) as [st1|];
        [|done].
      cbn [mbind option_bind].
      replace (Z.to_nat (k + 1)) with (S (Z.to_nat k)) by lia.
      destruct (face_indices !! S (Z.to_nat k)) as [face_id|] eqn:Hface.
      * rewrite (drop_S _ _ _ Hface). cbn [mbind option_bind].
        destruct (set_face_id face_id st1) as [st2|]; [|done].
        cbn [mbind option_bind]. rewrite IH by lia.
        by replace (Z.to_nat (k + 1 + 1)) with (S (S (Z.to_nat k))) by lia.
      * by rewrite (drop_ge _ (S (Z.to_nat k)))
          by (by apply lookup_ge_None).
    + destruct (push_vertex entry st) as [st1|]; [|done].
      cbn [mbind option_bind]. rewrite IH by lia.
      by replace (Z.to_nat (k + 1)) with (S (Z.to_nat k)) by lia.
Qed.

Lemma DeSerializeCellInfo_header cell_views num_face_dofs num_cells body :
  DeSerializeCellInfo cell_views (num_face_dofs :: num_cells :: body)
  = if decide (0 <= num_cells) then
      st ← decode body
             (Decoder (resize (Z.to_nat num_cells) empty_cell cell_views)
                      (-1) (-1) (-1) (-1));
      Some (dc_cell_views st, num_face_dofs)
    else None.
Proof.
  unfold DeSerializeCellInfo.
  change ((num_face_dofs :: num_cells :: body) !! 0%nat)
    with (Some num_face_dofs).
  change ((num_face_dofs :: num_cells :: body) !! 1%nat)
    with (Some num_cells).
  cbn [mbind option_bind].
  destruct (decide (0 <= num_cells)); [|done].
  by rewrite decode_at_suffix by lia.
Qed.

(** The decoder on a header followed by well-formed groups: the cells a
    reader of the format finds, then as many value-initialised entries as
    the header declares cells. *)
Lemma DeSerializeCellInfo_groups num_face_dofs num_cells groups :
  0 <= num_cells ->
  Forall well_formed_group groups ->
  DeSerializeCellInfo []
    (num_face_dofs :: num_cells :: flat_map encode_group groups)
  = Some (cells_of groups ++ replicate (Z.to_nat num_cells) empty_cell,
          num_face_dofs).
Proof.
  intros Hn Hwf. rewrite DeSerializeCellInfo_header.
  destruct (decide (0 <= num_cells)); [|lia]. rewrite resize_nil.
  destruct (decode_groups (Z.to_nat num_cells) groups Hwf _ _
              (represents_start _)) as (st & -> & Hrep).
  simpl. by rewrite (represents_cell_views _ _ _ Hrep).
Qed.

(** ** Reading back what the serializer wrote *)

Lemma absorb_same_cell gid cells fvs : forall faces,
  foldl absorb ((gid, faces) :: cells, int_neg (marker gid))
        (map (λ fv : CompactFaceView, (marker gid, fst fv, snd fv)) fvs)
  = ((gid, faces ++ fvs) :: cells, int_neg (marker gid)).
Proof.
  induction fvs as [|[face_id vertices] fvs IH]; intros faces; simpl.
  - by rewrite app_nil_r.
  - destruct (decide (int_neg (marker gid) ≠ int_neg (marker gid))); [done|].
    rewrite IH, <- app_assoc. done.
Qed.

Lemma absorb_cell cv cells last :
  canonical_cell cv -> int_neg (marker (fst cv)) ≠ last ->
  foldl absorb (cells, last) (groups_of_cell cv)
  = (cv :: cells, int_neg (marker (fst cv))).
Proof.
  destruct cv as [gid fvs]. intros (Hid & Hfaces & _) Hnew.
  unfold groups_of_cell. simpl in *.
  destruct fvs as [|[face_id vertices] fvs]; [done|]. simpl.
  destruct (decide (int_neg (marker gid) ≠ last)); [|done].
  rewrite unmarker_marker by (unfold in_int; lia).
  apply (absorb_same_cell gid cells fvs [(face_id, vertices)]).
Qed.

Lemma int_neg_marker_inj a b :
  0 <= a < int_half -> 0 <= b < int_half ->
  int_neg (marker a) = int_neg (marker b) -> a = b.
Proof.
  intros Ha Hb Heq.
  apply marker_inj; [unfold in_int; lia..|].
  apply int_neg_inj; auto using marker_is_int.
Qed.

Lemma absorb_cells views : forall cells last,
  Forall canonical_cell views ->
  adjacent_distinct (map fst views) ->
  match views with
  | cv :: _ => int_neg (marker (fst cv)) ≠ last
  | [] => True
  end ->
  fst (foldl absorb (cells, last) (groups_of views)) = reverse views ++ cells.
Proof.
  induction views as [|cv views IH]; intros cells last Hcan Hadj Hnew.
  - done.
  - inversion Hcan as [|? ? Hcv Hcan']; subst.
    unfold groups_of. simpl. rewrite foldl_app.
    rewrite absorb_cell by done.
    fold (groups_of views). rewrite IH.
    + by rewrite reverse_cons, <- app_assoc.
    + done.
    + destruct views; [done|]. apply Hadj.
    + destruct views as [|cv' views]; [done|].
      destruct Hadj as [Hne _]. inversion Hcan' as [|? ? Hcv' _]; subst.
      intros Heq. apply Hne. symmetry.
      apply int_neg_marker_inj; [apply Hcv' | apply Hcv | done].
Qed.

Lemma cells_of_groups_of views :
  Forall canonical_cell views ->
  adjacent_distinct (map fst views) ->
  cells_of (groups_of views) = views.
Proof.
  intros Hcan Hadj. unfold cells_of.
  rewrite absorb_cells; [|done..|].
  - by rewrite app_nil_r, reverse_involutive.
  - destruct Hcan as [|cv views Hcv _]; [done|].
    apply int_neg_marker_not_initial; [|apply marker_is_int].
    apply marker_negative, Hcv.
Qed.

Lemma groups_of_well_formed views :
  Forall canonical_cell views ->
  Forall well_formed_group (groups_of views).
Proof.
  induction 1 as [|[gid fvs] views (Hid & _ & Hverts) _ IH]; simpl.
  - constructor.
  - unfold groups_of. simpl. apply Forall_app. split; [|apply IH].
    unfold groups_of_cell. simpl in *. clear IH.
    induction Hverts as [|fv fvs Hfv _ IHf]; simpl; constructor; [|done].
    split; [by apply marker_negative|]. split; [apply marker_is_int|done].
Qed.

(** What the decoder makes of the serializer's output. *)
Lemma DeSerialize_Serialize views num_face_dofs :
  Forall canonical_cell views ->
  adjacent_distinct (map fst views) ->
  Z.of_nat (length views) < int_half ->
  DeSerializeCellInfo [] (SerializeCellInfo views [] num_face_dofs)
  = Some (views ++ replicate (length views) empty_cell, num_face_dofs).
Proof.
  intros Hcan Hadj Hlen.
  rewrite SerializeCellInfo_encode by done. simpl.
  rewrite DeSerializeCellInfo_groups; [|lia|by apply groups_of_well_formed].
  by rewrite cells_of_groups_of, Nat2Z.id.
Qed.

(** C1 (the code departs from the claim): the views read back from a
    serialized one-cell list are the cell followed by a value-initialised
    entry that was never sent, not the original list. *)
Theorem roundtrip_appends_empty_view :
  DeSerializeCellInfo [] (SerializeCellInfo [(0, [(0, [1; 2])])] [] 3)
  = Some ([(0, [(0, [1; 2])]); (0, [])], 3)
  /\ [(0, [(0, [1; 2])]); (0, [])] ≠ [(0, [(0, [1; 2])])].
Proof. split; [vm_compute; reflexivity | discriminate]. Qed.

(** C10: on a header that declares [n] cells followed by well-formed groups
    that encode [n] cells, the decoder returns [2n] entries; the first [n]
    are the decoded cells, the last [n] are value-initialised. *)
Theorem deserialize_returns_twice_the_cells num_face_dofs n groups :
  Forall well_formed_group groups ->
  length (cells_of groups) = n ->
  exists cell_views,
    DeSerializeCellInfo []
      (num_face_dofs :: Z.of_nat n :: flat_map encode_group groups)
    = Some (cell_views, num_face_dofs)
    /\ length cell_views = (2 * n)%nat
    /\ take n cell_views = cells_of groups
    /\ drop n cell_views = replicate n empty_cell.
Proof.
  intros Hwf Hn.
  rewrite DeSerializeCellInfo_groups by (done || lia).
  rewrite Nat2Z.id. eexists. split; [done|]. split; [|split].
  - rewrite length_app, length_replicate. lia.
  - by rewrite take_app_length'.
  - by rewrite drop_app_length'.
Qed.

Lemma deserialize_returns_twice_the_cells_witness :
  exists cell_views,
    DeSerializeCellInfo []
      (8 :: Z.of_nat 1
         :: flat_map encode_group [(-6, 0, [1; 2]); (-6, 1, [3; 4])])
    = Some (cell_views, 8)
    /\ length cell_views = (2 * 1)%nat
    /\ take 1 cell_views = cells_of [(-6, 0, [1; 2]); (-6, 1, [3; 4])]
    /\ drop 1 cell_views = replicate 1 empty_cell.
Proof.
  apply (deserialize_returns_twice_the_cells 8 1
           [(-6, 0, [1; 2]); (-6, 1, [3; 4])]).
  - repeat constructor; unfold in_int, int_half; lia.
  - reflexivity.
Defined.

(** ** The ids the decoder recovers *)

Lemma encode_groups_of views :
  Forall (λ cv : CompactCellView, in_int (fst cv)) views ->
  flat_map encode_group (groups_of views)
  = flat_map (λ cv : CompactCellView,
                flat_map (λ fv : CompactFaceView,
                            (- fst cv - 1) :: fst fv :: snd fv) (snd cv))
             views.
Proof.
  induction 1 as [|[gid fvs] views Hid _ IH]; [done|].
  unfold groups_of in *. simpl. rewrite flat_map_app, IH. f_equal.
  unfold groups_of_cell. simpl in *. rewrite marker_in_int by done.
  induction fvs as [|fv fvs IHf]; [done|]. simpl. by rewrite IHf.
Qed.

Lemma groups_with_ids_snoc cells global_id faces fv :
  groups_with_ids (cells ++ [(global_id, faces ++ [fv])])
  = groups_with_ids (cells ++ [(global_id, faces)])
      ++ [(- global_id - 1, fst fv, snd fv)].
Proof.
  unfold groups_with_ids. rewrite !flat_map_app. simpl.
  by rewrite !app_nil_r, map_app, app_assoc.
Qed.

Lemma absorb_groups groups :
  Forall well_formed_group groups ->
  forall last s,
    reader_after last s ->
    map fst (reverse (fst (foldl absorb s groups)))
    = map fst (reverse (fst s))
        ++ map (λ m, - m - 1) (marker_runs last (map marker_of groups))
    /\ groups_with_ids (reverse (fst (foldl absorb s groups)))
       = groups_with_ids (reverse (fst s)) ++ groups.
Proof.
  induction 1 as [|[[m face_id] vertices] groups Hwf _ IH];
    intros last [cells l] Hs.
  { simpl. by rewrite !app_nil_r. }
  destruct Hwf as (Hneg & Hint & _).
  cbn [foldl map marker_runs].
  change (marker_of (m, face_id, vertices)) with m.
  assert (Hnext : forall faces cells',
            reader_after (Some m) ((- m - 1, faces) :: cells', int_neg m)).
  { intros faces cells'. unfold reader_after. cbn [fst snd].
    split; [done|]. split; [done|]. split; [done|]. by eexists _, _. }
  assert (Hnew : forall cells',
            groups_with_ids
              (reverse ((- m - 1, [(face_id, vertices)]) :: cells'))
            = groups_with_ids (reverse cells') ++ [(m, face_id, vertices)]).
  { intros cells'. rewrite reverse_cons. unfold groups_with_ids.
    rewrite flat_map_app. simpl.
    by replace (- (- m - 1) - 1) with m by lia. }
  destruct last as [m0|]; simpl in Hs.
  - destruct Hs as (Hneg0 & Hint0 & -> & faces & cells' & ->).
    destruct (decide (Some m0 = Some m)) as [[= ->]|Hother].
    + unfold absorb at 2 4. cbn [fst snd].
      destruct (decide (int_neg m ≠ int_neg m)); [done|].
      destruct (IH (Some m) _ (Hnext (faces ++ [(face_id, vertices)]) cells'))
        as [-> ->].
      cbn [fst]. rewrite !reverse_cons, groups_with_ids_snoc, !map_app.
      cbn [fst snd map]. replace (- (- m - 1) - 1) with m by lia.
      split; [done|]. by rewrite <- app_assoc.
    + unfold absorb at 2 4. cbn [fst snd].
      destruct (decide (int_neg m ≠ int_neg m0)) as [_|Hsame].
      2:{ destruct Hsame. intros Heq. apply Hother. f_equal.
          symmetry. by apply int_neg_inj. }
      rewrite unmarker_entry by done.
      destruct (IH (Some m) _ (Hnext [(face_id, vertices)]
                                 ((- m0 - 1, faces) :: cells')))
        as [-> ->].
      cbn [fst]. rewrite Hnew.
      rewrite (reverse_cons ((- m0 - 1, faces) :: cells')), map_app.
      cbn [map fst]. by rewrite <- !app_assoc.
  - subst l.
    destruct (decide (None = Some m)) as [|_]; [done|].
    unfold absorb at 2 4. cbn [fst snd].
    destruct (decide (int_neg m ≠ -1)) as [_|Hinitial].
    2:{ destruct Hinitial. by apply int_neg_marker_not_initial. }
    rewrite unmarker_entry by done.
    destruct (IH (Some m) _ (Hnext [(face_id, vertices)] cells)) as [-> ->].
    cbn [fst]. rewrite Hnew. rewrite (reverse_cons cells), map_app.
    cbn [map fst]. by rewrite <- !app_assoc.
Qed.

Lemma cells_of_groups groups :
  Forall well_formed_group groups ->
  map fst (cells_of groups)
  = map (λ m, - m - 1) (marker_runs None (map marker_of groups))
  /\ groups_with_ids (cells_of groups) = groups.
Proof.
  intros Hwf. unfold cells_of.
  by destruct (absorb_groups groups Hwf None ([], -1) eq_refl) as [-> ->].
Qed.

(** C6: the buffer is the header [num_face_dofs; number of cells] followed
    by one group [-(global id)-1; face id; vertex ids] per face; the
    markers are negative.  The decoder takes [num_face_dofs] from entry 0
    and sizes its output from entry 1; the cells it reads are one per run
    of equal markers, in the order of the buffer, each with the id
    [-marker-1] of its run, and their faces are the groups of the buffer:
    writing every face back under the marker [-id-1] of its cell gives the
    groups that were read. *)
Theorem wire_format views num_face_dofs :
  Forall (λ cv : CompactCellView, 0 <= fst cv < int_half) views ->
  Z.of_nat (length views) < int_half ->
  SerializeCellInfo views [] num_face_dofs
  = num_face_dofs :: Z.of_nat (length views)
      :: flat_map (λ cv : CompactCellView,
                     flat_map (λ fv : CompactFaceView,
                                 (- fst cv - 1) :: fst fv :: snd fv) (snd cv))
                  views
  /\ Forall (λ cv : CompactCellView, - fst cv - 1 < 0) views
  /\ forall entry0 entry1 groups,
       0 <= entry1 -> Forall well_formed_group groups ->
       exists cells,
         DeSerializeCellInfo []
           (entry0 :: entry1 :: flat_map encode_group groups)
         = Some (cells ++ replicate (Z.to_nat entry1) empty_cell, entry0)
         /\ map fst cells
            = map (λ m, - m - 1) (marker_runs None (map marker_of groups))
         /\ groups_with_ids cells = groups.
Proof.
  intros Hids Hlen. split; [|split].
  - rewrite SerializeCellInfo_encode by done. simpl.
    rewrite encode_groups_of; [done|].
    eapply List.Forall_impl; [|apply Hids].
    intros cv Hcv. unfold in_int. simpl in Hcv. lia.
  - eapply List.Forall_impl; [|apply Hids]. intros cv Hcv. simpl in *. lia.
  - intros entry0 entry1 groups Hn Hwf. exists (cells_of groups).
    split; [by apply DeSerializeCellInfo_groups | by apply cells_of_groups].
Qed.

Lemma wire_format_witness :
  SerializeCellInfo [(5, [(0, [1; 2]); (1, [3; 4])])] [] 8
  = [8; 1; -6; 0; 1; 2; -6; 1; 3; 4].
Proof.
  assert (Hids : Forall (λ cv : CompactCellView, 0 <= fst cv < int_half)
                        [(5, [(0, [1; 2]); (1, [3; 4])])])
    by (repeat constructor; unfold int_half; simpl; lia).
  assert (Hlen : Z.of_nat (length [(5, [(0, [1; 2]); (1, [3; 4])])])
                 < int_half) by (unfold int_half; simpl; lia).
  exact (proj1 (wire_format [(5, [(0, [1; 2]); (1, [3; 4])])] 8 Hids Hlen)).
Defined.

(** ** Markers in the serialized buffer *)

Lemma count_occ_nonnegative (vs : list Z) (m : Z) :
  m < 0 -> Forall (λ vertex, 0 <= vertex) vs -> count_occ Z.eq_dec vs m = 0%nat.
Proof.
  intros Hm. induction 1 as [|vertex vs Hv _ IH]; [done|].
  simpl in *. destruct (Z.eq_dec vertex m); [lia|done].
Qed.

Lemma count_occ_cell gid fvs m :
  m < 0 ->
  Forall (λ fv : CompactFaceView, Forall (λ vertex, 0 <= vertex) (snd fv)) fvs ->
  Forall (λ fv : CompactFaceView, 0 <= fst fv) fvs ->
  count_occ Z.eq_dec (flat_map encode_group (groups_of_cell (gid, fvs))) m
  = if decide (marker gid = m) then length fvs else 0%nat.
Proof.
  intros Hm Hverts Hids. unfold groups_of_cell. simpl.
  induction Hverts as [|[face_id vertices] fvs Hv _ IH].
  - by destruct (decide (marker gid = m)).
  - inversion Hids as [|? ? Hid Hids']; subst. simpl in *.
    rewrite count_occ_app, count_occ_nonnegative, IH by done.
    destruct (Z.eq_dec face_id m); [lia|].
    destruct (Z.eq_dec (marker gid) m), (decide (marker gid = m)); done.
Qed.

Lemma count_occ_other_cells views gid :
  Forall canonical_cell views -> Forall face_ids_nonnegative views ->
  0 <= gid < int_half -> gid ∉ map fst views ->
  count_occ Z.eq_dec (flat_map encode_group (groups_of views)) (marker gid)
  = 0%nat.
Proof.
  intros Hcan Hids Hgid.
  induction Hcan as [|[gid' fvs] views (Hid' & _ & Hverts) _ IH];
    intros Hnotin; [done|].
  inversion Hids as [|? ? Hfids Hids']; subst.
  unfold groups_of. simpl. rewrite flat_map_app, count_occ_app.
  fold (groups_of views). rewrite IH; [|done|].
  - rewrite count_occ_cell; [|by apply marker_negative|done|done].
    destruct (decide (marker gid' = marker gid)) as [Heq|]; [|done].
    exfalso. apply Hnotin. simpl in *.
    assert (gid = gid') as -> by (apply marker_inj; [unfold in_int; lia..|done]).
    by left.
  - intros Hin. apply Hnotin. by right.
Qed.

Lemma count_occ_marker views gid faces :
  Forall canonical_cell views -> Forall face_ids_nonnegative views ->
  NoDup (map fst views) -> (gid, faces) ∈ views ->
  count_occ Z.eq_dec (flat_map encode_group (groups_of views)) (marker gid)
  = length faces.
Proof.
  intros Hcan Hids.
  induction Hcan as [|[gid' fvs] views Hcv Hcan IH];
    intros Hnodup Hin; [by apply elem_of_nil in Hin|].
  inversion Hids as [|? ? Hfids Hids']; subst.
  inversion Hnodup as [|? ? Hfresh Hnodup']; subst.
  pose proof Hcv as (Hid' & _ & Hverts).
  unfold groups_of. simpl. rewrite flat_map_app, count_occ_app.
  fold (groups_of views).
  apply elem_of_cons in Hin as [Heq|Hin].
  - injection Heq as -> ->.
    rewrite count_occ_cell; [|by apply marker_negative|done|done].
    rewrite decide_True by done.
    rewrite count_occ_other_cells by done. lia.
  - apply list_elem_of_In in Hin.
    assert (gid' ≠ gid) as Hne.
    { intros ->. apply Hfresh, list_elem_of_In. by apply (in_map fst) in Hin. }
    assert (0 <= gid < int_half) as Hgid.
    { rewrite List.Forall_forall in Hcan. apply (Hcan _ Hin). }
    apply list_elem_of_In in Hin.
    rewrite count_occ_cell; [|by apply marker_negative|done|done].
    rewrite decide_False.
    + by rewrite IH.
    + intros Heq. apply Hne. simpl in *.
      apply marker_inj; [unfold in_int; lia..|done].
Qed.

Lemma filter_nonnegative (vs : list Z) :
  Forall (λ vertex, 0 <= vertex) vs -> filter (λ entry, entry < 0) vs = [].
Proof.
  induction 1 as [|vertex vs Hv _ IH]; [done|].
  rewrite filter_cons_False by (simpl in Hv; lia). done.
Qed.

(** The negative entries of the body are the markers of its groups. *)
Lemma filter_markers views :
  Forall canonical_cell views -> Forall face_ids_nonnegative views ->
  filter (λ entry, entry < 0) (flat_map encode_group (groups_of views))
  = map marker_of (groups_of views).
Proof.
  intros Hcan Hids.
  induction Hcan as [|[gid fvs] views (Hid & _ & Hverts) _ IH]; [done|].
  inversion Hids as [|? ? Hfids Hids']; subst.
  unfold groups_of. simpl. rewrite flat_map_app, list.filter_app, map_app.
  fold (groups_of views). rewrite IH by done. f_equal.
  unfold groups_of_cell, face_ids_nonnegative in *. simpl in *.
  pose proof (marker_negative gid Hid) as Hneg. clear IH Hids.
  induction Hverts as [|[face_id vertices] fvs Hv _ IHf]; [done|].
  inversion Hfids as [|? ? Hfid Hfids']; subst. simpl in *.
  rewrite filter_cons_True by done.
  rewrite filter_cons_False by lia.
  rewrite list.filter_app, filter_nonnegative by done. simpl.
  by rewrite IHf.
Qed.

Lemma absorb_length groups : forall s,
  length (fst (foldl absorb s groups))
  = (length (fst s) + marker_changes (snd s) (map marker_of groups))%nat.
Proof.
  induction groups as [|[[m face_id] vertices] groups IH];
    intros [cells last]; simpl.
  - lia.
  - rewrite IH. change (marker_of (m, face_id, vertices)) with m.
    destruct (decide (int_neg m ≠ last)) as [Hnew|Hsame]; simpl; [lia|].
    assert (last = int_neg m) as ->
      by (destruct (decide (last = int_neg m)); [done|exfalso; auto]).
    destruct cells as [|[gid faces] cells]; simpl; lia.
Qed.

Lemma cells_of_length groups :
  length (cells_of groups) = marker_changes (-1) (map marker_of groups).
Proof. unfold cells_of. by rewrite length_reverse, absorb_length. Qed.

Lemma NoDup_adjacent_distinct (ids : list Z) :
  NoDup ids -> adjacent_distinct ids.
Proof.
  induction 1 as [|a ids Hfresh _ IH]; [done|].
  destruct ids as [|b ids]; [done|]. split; [|done].
  intros ->. apply Hfresh. by left.
Qed.


(** C4, as the code has it: the serializer writes a cell's marker at the
    head of every face group, so a cell with [k] faces has its marker [k]
    times in the body of the buffer; the marker differs from the one before
    it exactly once per cell. *)
Theorem marker_once_per_face views num_face_dofs :
  Forall canonical_cell views -> Forall face_ids_nonnegative views ->
  NoDup (map fst views) ->
  Z.of_nat (length views) < int_half ->
  (forall gid faces, (gid, faces) ∈ views ->
     count_occ Z.eq_dec (drop 2 (SerializeCellInfo views [] num_face_dofs))
               (marker gid)
     = length faces)
  /\ marker_changes (-1)
       (filter (λ entry, entry < 0)
               (drop 2 (SerializeCellInfo views [] num_face_dofs)))
     = length views.
Proof.
  intros Hcan Hids Hnodup Hlen.
  rewrite SerializeCellInfo_encode by done. simpl. rewrite drop_0. split.
  - intros gid faces Hin. by apply count_occ_marker.
  - rewrite filter_markers by done.
    rewrite <- cells_of_length, cells_of_groups_of; [done..|].
    by apply NoDup_adjacent_distinct.
Qed.

Lemma marker_once_per_face_witness :
  count_occ Z.eq_dec
    (drop 2 (SerializeCellInfo
               [(5, [(0, [1; 2]); (1, [3; 4])]); (7, [(2, [6])])] [] 8))
    (marker 5)
  = 2%nat.
Proof.
  assert (Hcan : Forall canonical_cell
                   [(5, [(0, [1; 2]); (1, [3; 4])]); (7, [(2, [6])])]).
  { repeat constructor; unfold int_half; simpl; (lia || discriminate). }
  assert (Hids : Forall face_ids_nonnegative
                   [(5, [(0, [1; 2]); (1, [3; 4])]); (7, [(2, [6])])]).
  { repeat constructor; simpl; lia. }
  assert (Hnodup : NoDup (map fst
                   [(5, [(0, [1; 2]); (1, [3; 4])]); (7, [(2, [6])])])).
  { simpl. repeat constructor; intros Hin;
      repeat (apply elem_of_cons in Hin as [Hin|Hin]; [discriminate Hin|]);
      inversion Hin. }
  assert (Hlen : Z.of_nat (length
                   [(5, [(0, [1; 2]); (1, [3; 4])]); (7, [(2, [6])])])
                 < int_half) by (unfold int_half; simpl; lia).
  exact (proj1 (marker_once_per_face _ 8 Hcan Hids Hnodup Hlen)
               5 [(0, [1; 2]); (1, [3; 4])] (list_elem_of_here _ _)).
Defined.

(** C4 as it is stated fails: the marker of a cell with two faces is in the
    buffer twice. *)
Lemma marker_repeated_for_second_face :
  count_occ Z.eq_dec
    (SerializeCellInfo [(5, [(0, [1; 2]); (1, [3; 4])])] [] 8) (marker 5)
  ≠ 1%nat.
Proof. vm_compute. discriminate. Qed.

(** ** Two consecutive groups with the same marker *)

Lemma absorb_invariant s g :
  reader_invariant s -> well_formed_group g -> reader_invariant (absorb s g).
Proof.
  destruct s as [cells last], g as [[m face_id] vertices].
  unfold reader_invariant, absorb. simpl. intros Hinv (Hneg & Hint & _).
  destruct (decide (int_neg m ≠ last)) as [Hnew|Hsame]; simpl; [done|].
  destruct cells as [|[gid faces] cells]; simpl; done.
Qed.

Lemma foldl_absorb_invariant groups :
  Forall well_formed_group groups ->
  forall s, reader_invariant s -> reader_invariant (foldl absorb s groups).
Proof.
  induction 1 as [|g groups Hg _ IH]; intros s Hs; simpl; [done|].
  by apply IH, absorb_invariant.
Qed.

(** The first of the two groups leaves its face last in the latest cell. *)
Lemma absorb_first s m face_id vertices :
  reader_invariant s -> well_formed_group (m, face_id, vertices) ->
  exists faces cells,
    absorb s (m, face_id, vertices)
    = ((- m - 1, faces ++ [(face_id, vertices)]) :: cells, int_neg m).
Proof.
  destruct s as [cells last].
  unfold reader_invariant, absorb. simpl. intros Hinv (Hneg & Hint & _).
  destruct (decide (int_neg m ≠ last)) as [Hnew|Hsame]; simpl.
  - exists [], cells. by rewrite unmarker_entry.
  - assert (last = int_neg m) as ->
      by (destruct (decide (last = int_neg m)); [done|exfalso; auto]).
    destruct cells as [|[gid faces] cells]; simpl in *.
    + by apply int_neg_marker_not_initial in Hinv.
    + exists faces, cells. by rewrite Hinv, unmarker_entry.
Qed.

(** The second one adds its face to that cell. *)
Lemma absorb_second gid faces cells m face_id vertices :
  absorb ((gid, faces) :: cells, int_neg m) (m, face_id, vertices)
  = ((gid, faces ++ [(face_id, vertices)]) :: cells, int_neg m).
Proof.
  unfold absorb. simpl.
  by destruct (decide (int_neg m ≠ int_neg m)).
Qed.

(** Later groups leave the faces a cell already has where they are. *)
Lemma absorb_keeps gid (faces : list CompactFaceView)
    (cells : list CompactCellView) groups :
  forall s,
    (exists later after, fst s = later ++ (gid, faces ++ after) :: cells) ->
    exists later after,
      fst (foldl absorb s groups) = later ++ (gid, faces ++ after) :: cells.
Proof.
  induction groups as [|[[m face_id] vertices] groups IH];
    intros [current last] Hs; simpl; [done|].
  apply IH. destruct Hs as (later & after & Hs). simpl in Hs. subst current.
  destruct (decide (int_neg m ≠ last)) as [Hnew|Hsame]; simpl.
  - by exists ((int_sub (int_neg m) 1, [(face_id, vertices)]) :: later), after.
  - destruct later as [|[gid' faces'] later]; simpl.
    + exists [], (after ++ [(face_id, vertices)]). simpl.
      by rewrite app_assoc.
    + by exists ((gid', faces' ++ [(face_id, vertices)]) :: later), after.
Qed.

(** C5: where two consecutive groups carry the same marker, one cell entry
    of the result has both faces, one after the other, under the id
    [-marker-1]; and the second group adds no entry to the result. *)
Theorem same_marker_same_cell num_face_dofs num_cells groups1 groups2
    m face0 vertices0 face1 vertices1 :
  0 <= num_cells ->
  Forall well_formed_group
    (groups1 ++ [(m, face0, vertices0); (m, face1, vertices1)] ++ groups2) ->
  (exists cell_views i before after,
     DeSerializeCellInfo []
       (num_face_dofs :: num_cells
          :: flat_map encode_group
               (groups1 ++ [(m, face0, vertices0); (m, face1, vertices1)]
                  ++ groups2))
     = Some (cell_views, num_face_dofs)
     /\ cell_views !! i
        = Some (- m - 1,
                before ++ [(face0, vertices0); (face1, vertices1)] ++ after))
  /\ (exists cell_views1 cell_views2,
        DeSerializeCellInfo []
          (num_face_dofs :: num_cells
             :: flat_map encode_group (groups1 ++ [(m, face0, vertices0)]))
        = Some (cell_views1, num_face_dofs)
        /\ DeSerializeCellInfo []
             (num_face_dofs :: num_cells
                :: flat_map encode_group
                     (groups1 ++ [(m, face0, vertices0);
                                  (m, face1, vertices1)]))
           = Some (cell_views2, num_face_dofs)
        /\ length cell_views2 = length cell_views1).
Proof.
  intros Hn Hwf.
  pose proof Hwf as Hwf'.
  apply Forall_app in Hwf' as [Hwf1 Hwf'].
  apply Forall_app in Hwf' as [Hwf01 Hwf2].
  inversion Hwf01 as [|? ? Hg0 Hwf01']; subst.
  inversion Hwf01' as [|? ? Hg1 _]; subst.
  pose proof (foldl_absorb_invariant groups1 Hwf1 ([], -1) eq_refl) as Hinv.
  destruct (absorb_first _ m face0 vertices0 Hinv Hg0)
    as (faces & cells & Hfirst).
  split.
  - rewrite DeSerializeCellInfo_groups by done.
    destruct (absorb_keeps (- m - 1)
                (faces ++ [(face0, vertices0); (face1, vertices1)])
                cells groups2
                ((- m - 1, faces ++ [(face0, vertices0); (face1, vertices1)])
                   :: cells, int_neg m))
      as (later & after & Hkeep).
    { exists [], []. simpl. by rewrite app_nil_r. }
    eexists _, (length (reverse cells)), faces, after.
    split; [done|].
    unfold cells_of. rewrite !foldl_app. cbn [foldl].
    rewrite Hfirst, absorb_second, <- app_assoc. cbn [app].
    rewrite Hkeep, reverse_app, reverse_cons, <- !app_assoc. cbn [app].
    by rewrite list_lookup_middle.
  - assert (Forall well_formed_group (groups1 ++ [(m, face0, vertices0)]))
      as Hwf10 by (apply Forall_app; split; [done|by constructor]).
    assert (Forall well_formed_group
              (groups1 ++ [(m, face0, vertices0); (m, face1, vertices1)]))
      as Hwf101 by (by apply Forall_app).
    rewrite !DeSerializeCellInfo_groups by done.
    eexists _, _. split; [done|]. split; [done|].
    unfold cells_of.
    rewrite !length_app, !length_reverse, !foldl_app. cbn [foldl].
    by rewrite Hfirst, absorb_second.
Qed.

Lemma same_marker_same_cell_witness :
  exists cell_views i before after,
    DeSerializeCellInfo []
      (8 :: 1 :: flat_map encode_group
                   ([] ++ [(-6, 0, [1; 2]); (-6, 1, [3; 4])] ++ []))
    = Some (cell_views, 8)
    /\ cell_views !! i
       = Some (- -6 - 1, before ++ [(0, [1; 2]); (1, [3; 4])] ++ after).
Proof.
  refine (proj1 (same_marker_same_cell 8 1 [] [] (-6) 0 [1; 2] 1 [3; 4] _ _)).
  - lia.
  - repeat constructor; unfold in_int, int_half; lia.
Defined.

(** ** SweepBuffer *)

Lemma test_requests_sent completed requests :
  snd (test_requests completed requests) = true
  <-> Forall (request_complete completed) requests.
Proof.
  induction requests as [|request requests IH]; simpl.
  - split; [constructor|done].
  - destruct request as [|id]; simpl.
    + destruct (test_requests completed requests) as [requests' all_sent].
      simpl in *. rewrite IH. split.
      * by constructor.
      * by inversion 1.
    + destruct (completed id) eqn:Hid; simpl.
      * destruct (test_requests completed requests) as [requests' all_sent].
        simpl in *. rewrite IH. split.
        -- by constructor.
        -- by inversion 1.
      * split; [done|]. inversion 1 as [|? ? Hreq _]; subst.
        simpl in Hreq. congruence.
Qed.

Lemma test_all_requests_sent completed message_request :
  snd (test_all_requests completed message_request) = true
  <-> Forall (Forall (request_complete completed)) message_request.
Proof.
  induction message_request as [|requests message_request IH]; simpl.
  - split; [constructor|done].
  - pose proof (test_requests_sent completed requests) as Hreqs.
    destruct (test_requests completed requests) as [requests' all_sent].
    simpl in Hreqs. destruct all_sent.
    + destruct (test_all_requests completed message_request)
        as [message_request' all_sent].
      simpl in *. rewrite IH. split.
      * intros Hall. constructor; [by apply Hreqs|done].
      * by inversion 1.
    + simpl. split; [done|]. inversion 1 as [|? ? Hhead _]; subst.
      by apply Hreqs in Hhead.
Qed.

Section SweepBufferFacts.
Context {F C : Type}.
Variable ClearSendPsi : F -> F.
Implicit Types sb : SweepBuffer F C.

Lemma ClearDownstreamBuffers_done completed sb :
  done_sending sb = true ->
  ClearDownstreamBuffers ClearSendPsi completed sb = sb.
Proof. unfold ClearDownstreamBuffers. by intros ->. Qed.

Lemma ClearDownstreamBuffers_incomplete completed sb :
  done_sending sb = false -> ¬ sends_complete completed sb ->
  done_sending (ClearDownstreamBuffers ClearSendPsi completed sb) = false
  /\ fluds_ (ClearDownstreamBuffers ClearSendPsi completed sb) = fluds_ sb.
Proof.
  unfold ClearDownstreamBuffers, sends_complete. intros -> Hpending.
  pose proof (test_all_requests_sent completed (deplocI_message_request sb))
    as Hsent.
  destruct (test_all_requests completed (deplocI_message_request sb))
    as [message_request all_sent].
  simpl in *. destruct all_sent; [|done].
  exfalso. by apply Hpending, Hsent.
Qed.

Lemma ClearDownstreamBuffers_complete completed sb :
  done_sending sb = false -> sends_complete completed sb ->
  done_sending (ClearDownstreamBuffers ClearSendPsi completed sb) = true
  /\ fluds_ (ClearDownstreamBuffers ClearSendPsi completed sb)
     = ClearSendPsi (fluds_ sb).
Proof.
  unfold ClearDownstreamBuffers, sends_complete. intros -> Hall.
  pose proof (test_all_requests_sent completed (deplocI_message_request sb))
    as Hsent.
  destruct (test_all_requests completed (deplocI_message_request sb))
    as [message_request all_sent].
  simpl in *. apply Hsent in Hall. by subst all_sent.
Qed.

Lemma poll_incomplete calls : forall sb,
  done_sending sb = false -> polls_incomplete ClearSendPsi sb calls ->
  done_sending (poll ClearSendPsi calls sb) = false
  /\ fluds_ (poll ClearSendPsi calls sb) = fluds_ sb.
Proof.
  induction calls as [|completed calls IH]; intros sb Hnot Hpolls; [done|].
  destruct Hpolls as [Hpending Hpolls].
  destruct (ClearDownstreamBuffers_incomplete completed sb Hnot Hpending)
    as [Hnot' Hfluds].
  unfold poll in *. simpl.
  destruct (IH _ Hnot' Hpolls) as [Hdone Hsame].
  split; [done|]. by rewrite Hsame.
Qed.

Lemma polls_incomplete_take calls : forall sb k,
  polls_incomplete ClearSendPsi sb calls ->
  polls_incomplete ClearSendPsi sb (take k calls).
Proof.
  induction calls as [|completed calls IH]; intros sb [|k] Hpolls; try done.
  destruct Hpolls as [Hpending Hpolls]. simpl. split; [done|by apply IH].
Qed.

Lemma poll_done calls : forall sb,
  done_sending sb = true -> poll ClearSendPsi calls sb = sb.
Proof.
  induction calls as [|completed calls IH]; intros sb Hdone; [done|].
  unfold poll in *. simpl.
  rewrite ClearDownstreamBuffers_done by done. by apply IH.
Qed.

(** C3: polled while some send is incomplete, the buffer stays "not done"
    and [ClearSendPsi] is not applied; the first call that finds every send
    complete sets [done_sending] and applies [ClearSendPsi], once; the calls
    after it change nothing. *)
Theorem ClearDownstreamBuffers_poll sb pending completed later :
  done_sending sb = false ->
  polls_incomplete ClearSendPsi sb pending ->
  sends_complete completed (poll ClearSendPsi pending sb) ->
  (forall k,
     DoneSending (poll ClearSendPsi (take k pending) sb) = false
     /\ fluds_ (poll ClearSendPsi (take k pending) sb) = fluds_ sb)
  /\ DoneSending (poll ClearSendPsi (pending ++ [completed]) sb) = true
  /\ fluds_ (poll ClearSendPsi (pending ++ [completed]) sb)
     = ClearSendPsi (fluds_ sb)
  /\ poll ClearSendPsi (pending ++ completed :: later) sb
     = poll ClearSendPsi (pending ++ [completed]) sb.
Proof.
  intros Hnot Hpolls Hall.
  destruct (poll_incomplete pending sb Hnot Hpolls) as [Hnot' Hfluds].
  destruct (ClearDownstreamBuffers_complete completed _ Hnot' Hall)
    as [Hdone Hclear].
  assert (poll ClearSendPsi (pending ++ [completed]) sb
          = ClearDownstreamBuffers ClearSendPsi completed
              (poll ClearSendPsi pending sb)) as Hlast
    by (unfold poll; by rewrite foldl_app).
  split; [|split; [|split]].
  - intros k. apply poll_incomplete; [done|].
    by apply polls_incomplete_take.
  - unfold DoneSending. by rewrite Hlast.
  - by rewrite Hlast, Hclear, Hfluds.
  - rewrite Hlast. unfold poll at 1. rewrite foldl_app. simpl.
    by apply poll_done.
Qed.

(** C7: [Reset] clears the three flags and every received flag, keeps the
    length of every flag array and leaves the other members as they are. *)
Theorem Reset_clears_flags_only sb :
  done_sending (Reset sb) = false
  /\ data_initialized (Reset sb) = false
  /\ upstream_data_initialized (Reset sb) = false
  /\ Forall (Forall (λ flag, flag = false))
            (prelocI_message_received (Reset sb))
  /\ Forall (Forall (λ flag, flag = false))
            (delayed_prelocI_message_received (Reset sb))
  /\ map length (prelocI_message_received (Reset sb))
     = map length (prelocI_message_received sb)
  /\ map length (delayed_prelocI_message_received (Reset sb))
     = map length (delayed_prelocI_message_received sb)
  /\ max_num_mess (Reset sb) = max_num_mess sb
  /\ EAGER_LIMIT (Reset sb) = EAGER_LIMIT sb
  /\ num_groups_ (Reset sb) = num_groups_ sb
  /\ num_angles_ (Reset sb) = num_angles_ sb
  /\ comm_set (Reset sb) = comm_set sb
  /\ fluds_ (Reset sb) = fluds_ sb
  /\ deplocI_message_request (Reset sb) = deplocI_message_request sb.
Proof.
  assert (Hclear : forall flags : list (list bool),
            Forall (Forall (λ flag, flag = false))
                   (map (λ message_flags : list bool,
                           replicate (length message_flags) false) flags)).
  { induction flags as [|message_flags flags IH]; simpl; constructor; [|done].
    apply Forall_replicate. done. }
  assert (Hlen : forall flags : list (list bool),
            map length (map (λ message_flags : list bool,
                               replicate (length message_flags) false) flags)
            = map length flags).
  { induction flags as [|message_flags flags IH]; simpl; [done|].
    by rewrite length_replicate, IH. }
  unfold Reset. simpl. repeat split; auto.
Qed.
End SweepBufferFacts.

Lemma ClearDownstreamBuffers_poll_witness :
  let sb := mkSweepBuffer (F := nat) (C := unit) 0%nat 1%N 1%N tt
              false false false 0 0 [[Request 0; Request 1]] [] [] in
  let none_sent := λ _ : nat, false in
  let first_sent := λ id : nat, Nat.eqb id 0 in
  let all_sent := λ _ : nat, true in
  fluds_ (poll S ([none_sent; first_sent] ++ [all_sent]) sb) = 1%nat
  /\ poll S ([none_sent; first_sent] ++ all_sent :: [none_sent; all_sent]) sb
     = poll S ([none_sent; first_sent] ++ [all_sent]) sb.
Proof.
  intros sb none_sent first_sent all_sent.
  assert (Hnot : done_sending sb = false) by reflexivity.
  assert (Hpolls : polls_incomplete S sb [none_sent; first_sent]).
  { simpl. repeat split.
    - intros Hall. inversion Hall as [|? ? Hreqs _]; subst.
      inversion Hreqs as [|? ? Hreq _]; subst. discriminate Hreq.
    - intros Hall. inversion Hall as [|? ? Hreqs _]; subst.
      inversion Hreqs as [|? ? _ Hreqs']; subst.
      inversion Hreqs' as [|? ? Hreq _]; subst. discriminate Hreq. }
  assert (Hall : sends_complete all_sent (poll S [none_sent; first_sent] sb)).
  { repeat constructor. }
  destruct (ClearDownstreamBuffers_poll S sb [none_sent; first_sent]
              all_sent [none_sent; all_sent] Hnot Hpolls Hall)
    as (_ & _ & Hclear & Hlater).
  exact (conj Hclear Hlater).
Defined.

(** ** The send loops of the beta pass *)

Lemma send_successor_run tag_index deplocI locJ fr w cell_views dofs buf :
  deplocI_cell_views (this fr) !! deplocI = Some cell_views ->
  deplocI_face_dof_count (this fr) !! deplocI = Some dofs ->
  multi_face_indices fr !! deplocI = Some buf ->
  send_successor tag_index deplocI locJ fr w
  = Some (mkFrame
            (set_deplocI_cell_views
               (<[deplocI := []]> (deplocI_cell_views (this fr))) (this fr))
            (<[deplocI := Some (Request deplocI)]> (send_requests fr))
            (<[deplocI := SerializeCellInfo cell_views buf dofs]>
               (multi_face_indices fr)),
          mkWorld (inbox w)
            (trace w
             ++ [MPI_Isend (SerializeCellInfo cell_views buf dofs) locJ
                           (int_add 101 tag_index) deplocI;
                 ClearShrink_deplocI_cell_views deplocI])).
Proof.
  intros Hviews Hdofs Hbuf.
  unfold send_successor, mpi_bind, checked, emit, mpi_ret.
  rewrite Hviews, Hdofs, Hbuf. simpl. by rewrite <- app_assoc.
Qed.

Lemma send_phase_ext selected tag buffer1 buffer2 locs : forall deplocI,
  (forall k locJ, locs !! k = Some locJ -> selected locJ = true ->
     buffer1 (deplocI + k)%nat = buffer2 (deplocI + k)%nat) ->
  send_phase selected tag buffer1 deplocI locs
  = send_phase selected tag buffer2 deplocI locs.
Proof.
  induction locs as [|locJ locs IH]; intros deplocI Hsame; simpl; [done|].
  rewrite (IH (S deplocI)).
  - destruct (selected locJ) eqn:Hsel; [|done].
    specialize (Hsame 0%nat locJ eq_refl Hsel).
    rewrite Nat.add_0_r in Hsame. by rewrite Hsame.
  - intros k locJ' Hk Hsel.
    specialize (Hsame (S k) locJ' Hk Hsel).
    by rewrite Nat.add_succ_r in Hsame.
Qed.

Lemma frame_buffer_slot fr1 fr2 deplocI :
  frame_slot fr1 deplocI = frame_slot fr2 deplocI ->
  deplocI_face_dof_count (this fr1) = deplocI_face_dof_count (this fr2) ->
  frame_buffer fr1 deplocI = frame_buffer fr2 deplocI.
Proof.
  unfold frame_slot, frame_buffer. intros Hslot Hdofs.
  injection Hslot as Hviews _ Hbuf. by rewrite Hviews, Hbuf, Hdofs.
Qed.

(** A send loop over the successors from index [deplocI] on: its calls, and
    what it leaves in the frame. *)
Lemma send_loop_run (selected : Z -> bool) tag_index
    (body : nat -> Z -> frame -> mpi frame) :
  (forall deplocI locJ fr,
     body deplocI locJ fr
     = if selected locJ then send_successor tag_index deplocI locJ fr
       else mpi_ret fr) ->
  forall locs deplocI fr w,
    (deplocI + length locs <= length (deplocI_cell_views (this fr)))%nat ->
    (deplocI + length locs <= length (deplocI_face_dof_count (this fr)))%nat ->
    (deplocI + length locs <= length (send_requests fr))%nat ->
    (deplocI + length locs <= length (multi_face_indices fr))%nat ->
    exists fr',
      for_each body deplocI locs fr w
      = Some (fr', mkWorld (inbox w)
                     (trace w ++ send_phase selected (int_add 101 tag_index)
                                   (frame_buffer fr) deplocI locs))
      /\ length (deplocI_cell_views (this fr'))
         = length (deplocI_cell_views (this fr))
      /\ length (send_requests fr') = length (send_requests fr)
      /\ length (multi_face_indices fr') = length (multi_face_indices fr)
      /\ set_deplocI_cell_views [] (this fr')
         = set_deplocI_cell_views [] (this fr)
      /\ (forall j, (j < deplocI \/ deplocI + length locs <= j)%nat ->
            frame_slot fr' j = frame_slot fr j)
      /\ (forall k locJ, locs !! k = Some locJ ->
            frame_slot fr' (deplocI + k)
            = if selected locJ
              then (Some [], Some (Some (Request (deplocI + k))),
                    Some (frame_buffer fr (deplocI + k)))
              else frame_slot fr (deplocI + k)).
Proof.
  intros Hbody.
  induction locs as [|locJ locs IH];
    intros deplocI fr w Hviews Hdofs Hreqs Hbufs.
  - exists fr. simpl. unfold mpi_ret. rewrite app_nil_r.
    destruct w. repeat split; try done.
  - simpl in Hviews, Hdofs, Hreqs, Hbufs.
    cbn [for_each]. unfold mpi_bind. rewrite Hbody.
    destruct (selected locJ) eqn:Hsel.
    + destruct (lookup_lt_is_Some_2 (deplocI_cell_views (this fr)) deplocI)
        as [cell_views Hv]; [lia|].
      destruct (lookup_lt_is_Some_2 (deplocI_face_dof_count (this fr)) deplocI)
        as [dofs Hd]; [lia|].
      destruct (lookup_lt_is_Some_2 (multi_face_indices fr) deplocI)
        as [buf Hb]; [lia|].
      rewrite (send_successor_run _ _ _ _ _ _ _ _ Hv Hd Hb).
      set (fr1 := mkFrame _ _ _). set (w1 := mkWorld _ _).
      destruct (IH (S deplocI) fr1 w1)
        as (fr' & Hrun & Hlv & Hlr & Hlb & Hrest & Hout & Hin);
        try (subst fr1; simpl; rewrite ?length_insert; lia).
      assert (Hslot1 : forall j, j ≠ deplocI ->
                frame_slot fr1 j = frame_slot fr j).
      { intros j Hj. unfold frame_slot. subst fr1. simpl.
        by rewrite !list_lookup_insert_ne. }
      assert (Hbuf1 : forall j, j ≠ deplocI ->
                frame_buffer fr1 j = frame_buffer fr j).
      { intros j Hj. apply frame_buffer_slot; [by apply Hslot1|done]. }
      assert (Hbuf0 : frame_buffer fr deplocI
                      = SerializeCellInfo cell_views buf dofs).
      { unfold frame_buffer. by rewrite Hv, Hd, Hb. }
      exists fr'. split; [|split; [|split; [|split; [|split; [|split]]]]].
      * rewrite Hrun. subst w1. simpl. do 3 f_equal.
        rewrite Hsel, Hbuf0, <- app_assoc. simpl. do 3 f_equal.
        apply send_phase_ext. intros k locJ' _ _. apply Hbuf1. lia.
      * rewrite Hlv. subst fr1. simpl. by rewrite length_insert.
      * rewrite Hlr. subst fr1. simpl. by rewrite length_insert.
      * rewrite Hlb. subst fr1. simpl. by rewrite length_insert.
      * rewrite Hrest. subst fr1. simpl. by destruct (this fr).
      * intros j Hj. simpl in Hj. rewrite Hout by lia. apply Hslot1. lia.
      * intros [|k] locJ' Hk.
        -- injection Hk as <-. rewrite Hsel, Nat.add_0_r.
           rewrite Hout by lia. unfold frame_slot. subst fr1. simpl.
           rewrite !list_lookup_insert_eq by lia.
           by rewrite Hbuf0.
        -- simpl in Hk. rewrite Nat.add_succ_r.
           change (S (deplocI + k)) with (S deplocI + k)%nat.
           rewrite (Hin k locJ' Hk).
           destruct (selected locJ'); [|apply Hslot1; lia].
           rewrite Hbuf1 by lia. done.
    + unfold mpi_ret.
      destruct (IH (S deplocI) fr w)
        as (fr' & Hrun & Hlv & Hlr & Hlb & Hrest & Hout & Hin); try lia.
      exists fr'. split; [|split; [|split; [|split; [|split; [|split]]]]];
        try done.
      * rewrite Hrun. simpl. by rewrite Hsel.
      * intros j Hj. simpl in Hj. apply Hout. lia.
      * intros [|k] locJ' Hk.
        -- injection Hk as <-. rewrite Hsel, Nat.add_0_r. apply Hout. lia.
        -- simpl in Hk. rewrite Nat.add_succ_r.
           change (S (deplocI + k)) with (S deplocI + k)%nat.
           apply (Hin k locJ' Hk).
Qed.

(** ** The receive loops, the wait loop and the loop over the cells *)

Lemma messages_ready_app tag locs1 : forall locs2 box,
  messages_ready tag (locs1 ++ locs2) box
  <-> messages_ready tag locs1 box
      /\ messages_ready tag locs2 (after_receives tag locs1 box).
Proof.
  induction locs1 as [|locJ locs1 IH]; intros locs2 box; simpl.
  - unfold after_receives. simpl. tauto.
  - rewrite IH. unfold after_receives. simpl. tauto.
Qed.

Lemma receive_predecessor_run tag_index prelocI locJ views counts w
    face_indices rest count cell_views num_face_dofs :
  inbox w locJ (int_add 101 tag_index) = face_indices :: rest ->
  views !! prelocI = Some [] ->
  counts !! prelocI = Some count ->
  DeSerializeCellInfo [] face_indices = Some (cell_views, num_face_dofs) ->
  receive_predecessor tag_index prelocI locJ (views, counts) w
  = Some ((<[prelocI := cell_views]> views,
           <[prelocI := num_face_dofs]> counts),
          mkWorld (pop_message locJ (int_add 101 tag_index) (inbox w))
            (trace w ++ [MPI_Probe locJ (int_add 101 tag_index);
                         MPI_Recv locJ (int_add 101 tag_index)])).
Proof.
  intros Hbox Hslot Hcount Hdecode.
  unfold receive_predecessor, mpi_bind, probe_and_receive, checked, mpi_ret.
  rewrite Hbox. cbn [fst snd inbox trace].
  by rewrite Hslot, Hcount, Hdecode.
Qed.

Lemma wait_request_run deplocI locJ requests w :
  requests !! deplocI = Some (Some (Request deplocI)) ->
  wait_request deplocI locJ requests w
  = Some (<[deplocI := Some MPI_REQUEST_NULL]> requests,
          mkWorld (inbox w) (trace w ++ [MPI_Wait deplocI])).
Proof.
  intros Hslot. unfold wait_request, mpi_bind, checked, emit, mpi_ret.
  by rewrite Hslot.
Qed.

Lemma receive_loop_run tag_index locs : forall prelocI s w,
  (prelocI + length locs <= length (fst s))%nat ->
  (prelocI + length locs <= length (snd s))%nat ->
  (forall k, (k < length locs)%nat -> fst s !! (prelocI + k)%nat = Some []) ->
  messages_ready (int_add 101 tag_index) locs (inbox w) ->
  exists s',
    for_each (receive_predecessor tag_index) prelocI locs s w
    = Some (s', mkWorld (after_receives (int_add 101 tag_index) locs (inbox w))
                  (trace w ++ receive_phase (int_add 101 tag_index) locs)).
Proof.
  induction locs as [|locJ locs IH];
    intros prelocI [views counts] w Hviews Hcounts Hempty Hready.
  - eexists. simpl. unfold mpi_ret, after_receives, receive_phase. simpl.
    rewrite app_nil_r. by destruct w.
  - simpl in Hviews, Hcounts.
    destruct Hready as [(face_indices & rest & Hbox & Hdecodes) Hready].
    destruct Hdecodes as [[cell_views num_face_dofs] Hdecode].
    destruct (lookup_lt_is_Some_2 counts prelocI) as [count Hcount]; [lia|].
    pose proof (Hempty 0%nat) as Hslot. rewrite Nat.add_0_r in Hslot.
    specialize (Hslot ltac:(simpl; lia)). simpl in Hslot.
    cbn [for_each]. unfold mpi_bind at 1.
    rewrite (receive_predecessor_run _ _ _ _ _ _ _ _ _ _ _
               Hbox Hslot Hcount Hdecode).
    set (s1 := (<[prelocI := cell_views]> views,
                <[prelocI := num_face_dofs]> counts)).
    set (w1 := mkWorld _ _).
    destruct (IH (S prelocI) s1 w1) as (s' & Hrun).
    + subst s1. simpl. rewrite length_insert. lia.
    + subst s1. simpl. rewrite length_insert. lia.
    + intros k Hk. subst s1. simpl.
      rewrite list_lookup_insert_ne by lia.
      rewrite <- Nat.add_succ_r. apply Hempty. simpl. lia.
    + subst w1. simpl. done.
    + exists s'. rewrite Hrun. subst w1. simpl.
      unfold after_receives, receive_phase. simpl.
      by rewrite <- app_assoc.
Qed.

Lemma wait_loop_run locs : forall deplocI requests w,
  (forall k, (k < length locs)%nat ->
     requests !! (deplocI + k)%nat = Some (Some (Request (deplocI + k)))) ->
  exists requests',
    for_each wait_request deplocI locs requests w
    = Some (requests',
            mkWorld (inbox w)
              (trace w ++ map MPI_Wait (seq deplocI (length locs)))).
Proof.
  induction locs as [|locJ locs IH]; intros deplocI requests w Hposted.
  - eexists. simpl. unfold mpi_ret. rewrite app_nil_r. by destruct w.
  - pose proof (Hposted 0%nat) as Hslot. rewrite Nat.add_0_r in Hslot.
    specialize (Hslot ltac:(simpl; lia)).
    cbn [for_each]. unfold mpi_bind at 1.
    rewrite (wait_request_run _ _ _ _ Hslot).
    set (requests1 := <[deplocI := Some MPI_REQUEST_NULL]> requests).
    set (w1 := mkWorld _ _).
    destruct (IH (S deplocI) requests1 w1) as (requests' & Hrun).
    + intros k Hk. subst requests1.
      rewrite list_lookup_insert_ne by lia.
      replace (S deplocI + k)%nat with (deplocI + S k)%nat by lia.
      apply Hposted. simpl. lia.
    + exists requests'. rewrite Hrun. subst w1. simpl.
      by rewrite <- app_assoc.
Qed.

Lemma cell_loop_run NonLocalIncidentMapping spds items : forall csoi fl w,
  Forall (λ cell_g_index,
            is_Some (at_index (grid_cells_newbase spds) cell_g_index)) items ->
  exists fl',
    for_each (map_cell NonLocalIncidentMapping spds) csoi items fl w
    = Some (fl', w).
Proof.
  induction items as [|cell_g_index items IH]; intros csoi fl w Hitems.
  - by eexists.
  - inversion Hitems as [|? ? [newbase Hcell] Hitems']; subst.
    cbn [for_each]. unfold mpi_bind at 1.
    unfold map_cell at 1. unfold mpi_bind, checked. rewrite Hcell.
    destruct newbase; unfold mpi_ret; by apply IH.
Qed.

(** ** The whole beta pass *)

Lemma send_ordinary_body spds tag_index deplocI locJ fr :
  send_ordinary spds tag_index deplocI locJ fr
  = if negb (is_delayed_successor spds locJ)
    then send_successor tag_index deplocI locJ fr
    else mpi_ret fr.
Proof. unfold send_ordinary. by destruct (is_delayed_successor spds locJ). Qed.

Lemma default_replicate_nil {A} n (k : nat) :
  default [] (replicate n (@nil A) !! k) = [].
Proof.
  destruct (replicate n (@nil A) !! k) as [x|] eqn:Hk; [|done].
  by apply lookup_replicate_1 in Hk as [-> _].
Qed.

Section BetaPassFacts.
Variable NonLocalIncidentMapping : Z -> SPDS -> FLUDS -> FLUDS.

Lemma InitializeBetaElements_run spds tag_index fl w :
  ready_for_beta spds tag_index fl w ->
  exists fl',
    InitializeBetaElements NonLocalIncidentMapping spds tag_index fl w
    = Some (fl',
            mkWorld
              (after_receives (int_add 101 tag_index)
                 (delayed_location_dependencies spds
                    ++ location_dependencies spds) (inbox w))
              (trace w ++ beta_trace spds tag_index fl))
    /\ deplocI_cell_views fl' = []
    /\ prelocI_cell_views fl' = []
    /\ delayed_prelocI_cell_views fl' = [].
Proof.
  intros (Hviews & Hdofs & Hpre & Hdpre & Hready & Hcells).
  apply messages_ready_app in Hready as [Hready1 Hready2].
  unfold InitializeBetaElements. rewrite resize_nil.
  set (fr0 := mkFrame fl _ _).
  (* the delayed sends *)
  destruct (send_loop_run (is_delayed_successor spds) tag_index
              (send_delayed spds tag_index) (λ _ _ _, eq_refl)
              (location_successors spds) 0%nat fr0 w)
    as (fr1 & Hrun1 & Hlv1 & Hlr1 & Hlb1 & Hrest1 & Hout1 & Hin1);
    [subst fr0; simpl; rewrite ?length_replicate; lia..|].
  unfold mpi_bind at 1. rewrite Hrun1. clear Hrun1.
  assert (Hd1 : delayed_prelocI_cell_views (this fr1) = []).
  { apply (f_equal delayed_prelocI_cell_views) in Hrest1.
    simpl in Hrest1. by rewrite Hrest1. }
  assert (Hp1 : prelocI_cell_views (this fr1) = []).
  { apply (f_equal prelocI_cell_views) in Hrest1.
    simpl in Hrest1. by rewrite Hrest1. }
  assert (Hdof1 : deplocI_face_dof_count (this fr1)
                  = deplocI_face_dof_count fl).
  { apply (f_equal deplocI_face_dof_count) in Hrest1.
    simpl in Hrest1. by rewrite Hrest1. }
  rewrite Hd1, Hp1, !resize_nil.
  (* the two receive loops *)
  set (w1 := mkWorld _ _).
  destruct (receive_loop_run tag_index (delayed_location_dependencies spds)
              0%nat
              (replicate (length (delayed_location_dependencies spds)) [],
               resize (length (delayed_location_dependencies spds)) 0
                      (delayed_prelocI_face_dof_count (this fr1))) w1)
    as ([delayed_views delayed_count] & Hrun2);
    [simpl; rewrite ?length_replicate, ?length_resize; try lia..| |done|].
  { intros k Hk. simpl. by apply lookup_replicate_2. }
  unfold mpi_bind at 1. rewrite Hrun2. clear Hrun2.
  set (w2 := mkWorld _ _).
  destruct (receive_loop_run tag_index (location_dependencies spds) 0%nat
              (replicate (length (location_dependencies spds)) [],
               resize (length (location_dependencies spds)) 0
                      (prelocI_face_dof_count (this fr1))) w2)
    as ([views count] & Hrun3);
    [simpl; rewrite ?length_replicate, ?length_resize; try lia..| |done|].
  { intros k Hk. simpl. by apply lookup_replicate_2. }
  unfold mpi_bind at 1. rewrite Hrun3. clear Hrun3.
  (* the ordinary sends *)
  set (w3 := mkWorld _ _).
  set (fr3 := mkFrame _ _ _).
  destruct (send_loop_run (λ locJ, negb (is_delayed_successor spds locJ))
              tag_index (send_ordinary spds tag_index)
              (send_ordinary_body spds tag_index)
              (location_successors spds) 0%nat fr3 w3)
    as (fr4 & Hrun4 & Hlv4 & Hlr4 & Hlb4 & Hrest4 & Hout4 & Hin4);
    [subst fr3 fr0; simpl in *; rewrite ?length_replicate in *;
     rewrite ?Hdof1; lia..|].
  unfold mpi_bind at 1. rewrite Hrun4. clear Hrun4.
  (* the wait loop *)
  set (w4 := mkWorld _ _).
  destruct (wait_loop_run (location_successors spds) 0%nat
              (send_requests fr4) w4) as (requests5 & Hrun5).
  { intros k Hk. simpl.
    destruct (lookup_lt_is_Some_2 (location_successors spds) k Hk)
      as [locJ HlocJ].
    specialize (Hin4 k locJ HlocJ). specialize (Hin1 k locJ HlocJ).
    simpl in Hin4, Hin1.
    destruct (is_delayed_successor spds locJ); simpl in Hin4.
    - unfold frame_slot in Hin4, Hin1. subst fr3. simpl in Hin4.
      injection Hin4 as _ Hreq4 _. injection Hin1 as _ Hreq1 _.
      by rewrite Hreq4, Hreq1.
    - unfold frame_slot in Hin4. by injection Hin4 as _ Hreq4 _. }
  unfold mpi_bind at 1. rewrite Hrun5. clear Hrun5.
  unfold mpi_bind at 1, emit at 1.
  (* the loop over the cells *)
  set (w5 := mkWorld _ _).
  destruct (cell_loop_run NonLocalIncidentMapping spds (spls_item_id spds)
              0%nat (this fr4) w5 Hcells) as (fl6 & Hrun6).
  unfold mpi_bind. rewrite Hrun6. unfold mpi_ret.
  eexists. split.
  - do 2 f_equal. subst w5 w4 w3 w2 w1. simpl. f_equal.
    + unfold after_receives. by rewrite foldl_app.
    + unfold beta_trace, delayed_send_phase, ordinary_send_phase.
      rewrite <- !app_assoc. f_equal.
      rewrite (send_phase_ext _ _ (frame_buffer fr0) (sent_buffer fl)).
      2:{ intros k locJ _ _. unfold frame_buffer, sent_buffer. subst fr0.
          simpl. by rewrite default_replicate_nil. }
      do 3 f_equal.
      rewrite (send_phase_ext _ _ (frame_buffer fr3) (sent_buffer fl)); [done|].
      intros k locJ HlocJ Hsel. simpl.
      specialize (Hin1 k locJ HlocJ). simpl in Hin1.
      destruct (is_delayed_successor spds locJ); [done|].
      transitivity (frame_buffer fr1 k).
      { unfold frame_buffer. subst fr3. done. }
      rewrite (frame_buffer_slot fr1 fr0) by done.
      unfold frame_buffer, sent_buffer. subst fr0.
      simpl. by rewrite default_replicate_nil.
  - done.
Qed.
(** *** What the phases send, post and release *)

Lemma sends_to_app tr1 tr2 : sends_to (tr1 ++ tr2) = sends_to tr1 ++ sends_to tr2.
Proof. apply flat_map_app. Qed.

Lemma posted_requests_app tr1 tr2 :
  posted_requests (tr1 ++ tr2) = posted_requests tr1 ++ posted_requests tr2.
Proof. apply flat_map_app. Qed.

Lemma sends_to_send_phase (selected : Z -> bool) (P : Z -> Prop)
    `{!forall locJ, Decision (P locJ)} tag buffer locs :
  (forall locJ, selected locJ = true <-> P locJ) ->
  forall deplocI,
    sends_to (send_phase selected tag buffer deplocI locs) = filter P locs.
Proof.
  intros Hsel. induction locs as [|locJ locs IH]; intros deplocI; [done|].
  cbn [send_phase]. rewrite sends_to_app, IH.
  destruct (selected locJ) eqn:HlocJ.
  - rewrite filter_cons_True by (by apply Hsel). done.
  - rewrite filter_cons_False; [done|].
    intros HP. apply Hsel in HP. congruence.
Qed.

Lemma sends_to_receive_phase tag locs : sends_to (receive_phase tag locs) = [].
Proof. induction locs as [|locJ locs IH]; [done|]. simpl. apply IH. Qed.

Lemma sends_to_wait_phase n : sends_to (wait_phase n) = [].
Proof.
  unfold wait_phase. generalize 0%nat.
  induction n as [|n IH]; intros start; [done|]. simpl. apply IH.
Qed.

Lemma posted_send_phases selected tag buffer locs : forall deplocI,
  posted_requests (send_phase selected tag buffer deplocI locs)
  ++ posted_requests
       (send_phase (λ locJ, negb (selected locJ)) tag buffer deplocI locs)
  ≡ₚ seq deplocI (length locs).
Proof.
  induction locs as [|locJ locs IH]; intros deplocI; [done|].
  cbn [send_phase length seq]. rewrite !posted_requests_app.
  destruct (selected locJ); simpl.
  - by rewrite IH.
  - rewrite <- Permutation_middle. by rewrite IH.
Qed.

Lemma clear_follows_send_app tr1 tr2 :
  clear_follows_send tr1 -> clear_follows_send tr2 ->
  clear_follows_send (tr1 ++ tr2).
Proof.
  intros H1 H2. induction tr1 as [|e tr1 IH]; [done|].
  destruct e; simpl in *; try (by apply IH).
  destruct tr1 as [|e' tr1]; [done|].
  destruct e'; try done. simpl in *.
  destruct H1 as [-> H1]. split; [done|]. by apply IH.
Qed.

Lemma clear_follows_send_phase selected tag buffer locs : forall deplocI,
  clear_follows_send (send_phase selected tag buffer deplocI locs).
Proof.
  induction locs as [|locJ locs IH]; intros deplocI; [done|].
  cbn [send_phase]. destruct (selected locJ); simpl; [|apply IH].
  split; [done|apply IH].
Qed.

Lemma clear_follows_receive_phase tag locs :
  clear_follows_send (receive_phase tag locs).
Proof. induction locs as [|locJ locs IH]; [done|]. simpl. apply IH. Qed.

Lemma clear_follows_wait_phase n : clear_follows_send (wait_phase n).
Proof.
  unfold wait_phase. generalize 0%nat.
  induction n as [|n IH]; intros start; [done|]. simpl. apply IH.
Qed.

Lemma is_delayed_successor_spec spds locJ :
  is_delayed_successor spds locJ = true
  <-> locJ ∈ delayed_location_successors spds.
Proof. unfold is_delayed_successor. apply bool_decide_eq_true. Qed.

Lemma is_ordinary_successor_spec spds locJ :
  negb (is_delayed_successor spds locJ) = true
  <-> locJ ∉ delayed_location_successors spds.
Proof.
  rewrite negb_true_iff. unfold is_delayed_successor.
  apply bool_decide_eq_false.
Qed.

(** C2: a pass that returns has made its calls in this order: the sends to
    the delayed successors, the probe and receive of every delayed
    predecessor, the probe and receive of every ordinary predecessor in the
    order of [location_dependencies], the sends to the other successors, the
    wait on every request slot, and only then the release of the send
    buffers; the requests waited for are the requests posted. *)
Theorem beta_pass_phase_order spds tag_index fl w :
  ready_for_beta spds tag_index fl w ->
  exists fl' w',
    InitializeBetaElements NonLocalIncidentMapping spds tag_index fl w
    = Some (fl', w')
    /\ trace w'
       = trace w
         ++ delayed_send_phase spds tag_index fl
         ++ receive_phase (int_add 101 tag_index)
              (delayed_location_dependencies spds)
         ++ receive_phase (int_add 101 tag_index) (location_dependencies spds)
         ++ ordinary_send_phase spds tag_index fl
         ++ wait_phase (length (location_successors spds))
         ++ [ClearShrink_multi_face_indices]
    /\ sends_to (delayed_send_phase spds tag_index fl)
       = filter (λ locJ, locJ ∈ delayed_location_successors spds)
                (location_successors spds)
    /\ sends_to (ordinary_send_phase spds tag_index fl)
       = filter (λ locJ, locJ ∉ delayed_location_successors spds)
                (location_successors spds)
    /\ posted_requests (delayed_send_phase spds tag_index fl
                        ++ ordinary_send_phase spds tag_index fl)
       ≡ₚ seq 0 (length (location_successors spds)).
Proof.
  intros Hready.
  destruct (InitializeBetaElements_run spds tag_index fl w Hready)
    as (fl' & Hrun & _).
  eexists fl', _. split; [exact Hrun|]. split; [done|].
  unfold delayed_send_phase, ordinary_send_phase. split; [|split].
  - apply sends_to_send_phase, is_delayed_successor_spec.
  - apply sends_to_send_phase, is_ordinary_successor_spec.
  - rewrite posted_requests_app. apply posted_send_phases.
Qed.

(** C8: the sends of one pass go to the delayed successors in the delayed
    phase and to the others in the ordinary phase, nothing else sends, and
    the destinations of all the sends are the successors, each as often as
    it is listed: once, when the successors are distinct. *)
Theorem one_send_per_successor spds tag_index fl w :
  ready_for_beta spds tag_index fl w ->
  exists fl' w',
    InitializeBetaElements NonLocalIncidentMapping spds tag_index fl w
    = Some (fl', w')
    /\ trace w' = trace w ++ beta_trace spds tag_index fl
    /\ sends_to (beta_trace spds tag_index fl)
       = sends_to (delayed_send_phase spds tag_index fl)
         ++ sends_to (ordinary_send_phase spds tag_index fl)
    /\ sends_to (delayed_send_phase spds tag_index fl)
       = filter (λ locJ, locJ ∈ delayed_location_successors spds)
                (location_successors spds)
    /\ sends_to (ordinary_send_phase spds tag_index fl)
       = filter (λ locJ, locJ ∉ delayed_location_successors spds)
                (location_successors spds)
    /\ sends_to (beta_trace spds tag_index fl) ≡ₚ location_successors spds
    /\ (NoDup (location_successors spds) ->
        NoDup (sends_to (beta_trace spds tag_index fl))).
Proof.
  intros Hready.
  destruct (InitializeBetaElements_run spds tag_index fl w Hready)
    as (fl' & Hrun & _).
  assert (Hdelayed :
            sends_to (delayed_send_phase spds tag_index fl)
            = filter (λ locJ, locJ ∈ delayed_location_successors spds)
                     (location_successors spds))
    by apply sends_to_send_phase, is_delayed_successor_spec.
  assert (Hordinary :
            sends_to (ordinary_send_phase spds tag_index fl)
            = filter (λ locJ, locJ ∉ delayed_location_successors spds)
                     (location_successors spds))
    by apply sends_to_send_phase, is_ordinary_successor_spec.
  assert (Hall : sends_to (beta_trace spds tag_index fl)
                 = sends_to (delayed_send_phase spds tag_index fl)
                   ++ sends_to (ordinary_send_phase spds tag_index fl)).
  { unfold beta_trace. rewrite !sends_to_app.
    rewrite !sends_to_receive_phase, sends_to_wait_phase. simpl.
    by rewrite app_nil_r. }
  assert (Hperm : sends_to (beta_trace spds tag_index fl)
                  ≡ₚ location_successors spds).
  { rewrite Hall, Hdelayed, Hordinary. apply filter_app_complement. }
  eexists fl', _. split; [exact Hrun|]. split; [done|].
  split; [done|]. split; [done|]. split; [done|]. split; [done|].
  intros Hnodup. by rewrite Hperm.
Qed.

(** C9: when the pass returns the three containers of transient views are
    empty; in its calls every send is followed at once by the clear and
    shrink of the views it sent; and an iteration of a send loop leaves the
    views of its successor empty. *)
Theorem transient_views_released spds tag_index fl w :
  ready_for_beta spds tag_index fl w ->
  (exists fl' w',
     InitializeBetaElements NonLocalIncidentMapping spds tag_index fl w
     = Some (fl', w')
     /\ deplocI_cell_views fl' = []
     /\ prelocI_cell_views fl' = []
     /\ delayed_prelocI_cell_views fl' = []
     /\ trace w' = trace w ++ beta_trace spds tag_index fl
     /\ clear_follows_send (beta_trace spds tag_index fl))
  /\ forall deplocI locJ fr w1 fr' w1',
       send_successor tag_index deplocI locJ fr w1 = Some (fr', w1') ->
       deplocI_cell_views (this fr') !! deplocI = Some []
       /\ exists buf,
            trace w1'
            = trace w1 ++ [MPI_Isend buf locJ (int_add 101 tag_index) deplocI;
                           ClearShrink_deplocI_cell_views deplocI].
Proof.
  intros Hready. split.
  - destruct (InitializeBetaElements_run spds tag_index fl w Hready)
      as (fl' & Hrun & Hdep & Hpre & Hdpre).
    eexists fl', _. split; [exact Hrun|]. repeat (split; [done|]).
    unfold beta_trace, delayed_send_phase, ordinary_send_phase.
    repeat apply clear_follows_send_app;
      auto using clear_follows_send_phase, clear_follows_receive_phase,
                 clear_follows_wait_phase.
    done.
  - intros deplocI locJ fr w1 fr' w1' Hsend.
    destruct (deplocI_cell_views (this fr) !! deplocI) as [cell_views|]
      eqn:Hviews;
      [|by unfold send_successor, mpi_bind, checked in Hsend;
           rewrite Hviews in Hsend].
    destruct (deplocI_face_dof_count (this fr) !! deplocI) as [dofs|]
      eqn:Hdofs;
      [|by unfold send_successor, mpi_bind, checked in Hsend;
           rewrite Hviews, Hdofs in Hsend].
    destruct (multi_face_indices fr !! deplocI) as [buf|] eqn:Hbuf;
      [|by unfold send_successor, mpi_bind, checked in Hsend;
           rewrite Hviews, Hdofs, Hbuf in Hsend].
    rewrite (send_successor_run _ _ _ _ _ _ _ _ Hviews Hdofs Hbuf) in Hsend.
    injection Hsend as <- <-. simpl. split; [|by eexists].
    apply list_lookup_insert_eq. by apply lookup_lt_Some in Hviews.
Qed.
End BetaPassFacts.

(** ** The example partition *)

Ltac example_is_ready :=
  unfold ready_for_beta;
  split; [simpl; lia|];
  split; [simpl; lia|];
  split; [reflexivity|];
  split; [reflexivity|];
  split;
  [ split;
    [ exists [3; 0], []; split; [reflexivity|]; eexists; vm_compute; reflexivity
    | split;
      [ exists [4; 1; -3; 0; 1; 2], [];
        split; [reflexivity|]; eexists; vm_compute; reflexivity
      | exact I ] ]
  | repeat constructor; eexists; reflexivity ].

Lemma beta_pass_phase_order_witness :
  exists fl' w',
    InitializeBetaElements (λ _ _ fl, fl) example_spds 0 example_fluds
                           example_world
    = Some (fl', w')
    /\ trace w'
       = trace example_world
         ++ delayed_send_phase example_spds 0 example_fluds
         ++ receive_phase (int_add 101 0)
              (delayed_location_dependencies example_spds)
         ++ receive_phase (int_add 101 0) (location_dependencies example_spds)
         ++ ordinary_send_phase example_spds 0 example_fluds
         ++ wait_phase (length (location_successors example_spds))
         ++ [ClearShrink_multi_face_indices]
    /\ sends_to (delayed_send_phase example_spds 0 example_fluds)
       = filter (λ locJ, locJ ∈ delayed_location_successors example_spds)
                (location_successors example_spds)
    /\ sends_to (ordinary_send_phase example_spds 0 example_fluds)
       = filter (λ locJ, locJ ∉ delayed_location_successors example_spds)
                (location_successors example_spds)
    /\ posted_requests (delayed_send_phase example_spds 0 example_fluds
                        ++ ordinary_send_phase example_spds 0 example_fluds)
       ≡ₚ seq 0 (length (location_successors example_spds)).
Proof.
  apply (beta_pass_phase_order (λ _ _ fl, fl) example_spds 0 example_fluds
           example_world).
  example_is_ready.
Defined.

Lemma one_send_per_successor_witness :
  exists fl' w',
    InitializeBetaElements (λ _ _ fl, fl) example_spds 0 example_fluds
                           example_world
    = Some (fl', w')
    /\ trace w' = trace example_world ++ beta_trace example_spds 0 example_fluds
    /\ sends_to (beta_trace example_spds 0 example_fluds)
       = sends_to (delayed_send_phase example_spds 0 example_fluds)
         ++ sends_to (ordinary_send_phase example_spds 0 example_fluds)
    /\ sends_to (delayed_send_phase example_spds 0 example_fluds)
       = filter (λ locJ, locJ ∈ delayed_location_successors example_spds)
                (location_successors example_spds)
    /\ sends_to (ordinary_send_phase example_spds 0 example_fluds)
       = filter (λ locJ, locJ ∉ delayed_location_successors example_spds)
                (location_successors example_spds)
    /\ sends_to (beta_trace example_spds 0 example_fluds)
       ≡ₚ location_successors example_spds
    /\ (NoDup (location_successors example_spds) ->
        NoDup (sends_to (beta_trace example_spds 0 example_fluds))).
Proof.
  apply (one_send_per_successor (λ _ _ fl, fl) example_spds 0 example_fluds
           example_world).
  example_is_ready.
Defined.

Lemma transient_views_released_witness :
  exists fl' w',
    InitializeBetaElements (λ _ _ fl, fl) example_spds 0 example_fluds
                           example_world
    = Some (fl', w')
    /\ deplocI_cell_views fl' = []
    /\ prelocI_cell_views fl' = []
    /\ delayed_prelocI_cell_views fl' = []
    /\ trace w' = trace example_world ++ beta_trace example_spds 0 example_fluds
    /\ clear_follows_send (beta_trace example_spds 0 example_fluds).
Proof.
  refine (proj1 (transient_views_released (λ _ _ fl, fl) example_spds 0
                   example_fluds example_world _)).
  example_is_ready.
Defined.

(** The calls of the pass on the example, written out. *)
Example example_beta_trace :
  beta_trace example_spds 0 example_fluds
  = [MPI_Isend [9; 1; -3; 0; 1] 4 101 1;
     ClearShrink_deplocI_cell_views 1;
     MPI_Probe 9 101; MPI_Recv 9 101;
     MPI_Probe 7 101; MPI_Recv 7 101;
     MPI_Isend [8; 1; -6; 0; 1; 2; -6; 1; 3; 4] 3 101 0;
     ClearShrink_deplocI_cell_views 0;
     MPI_Isend [10; 0] 5 101 2;
     ClearShrink_deplocI_cell_views 2;
     MPI_Wait 0; MPI_Wait 1; MPI_Wait 2;
     ClearShrink_multi_face_indices].
Proof. vm_compute. reflexivity. Qed.

(** * Further properties *)

(** ** The serializer *)

Lemma SerializeCellInfo_unfold views buf num_face_dofs :
  SerializeCellInfo views buf num_face_dofs
  = buf ++ num_face_dofs :: wrap (Z.of_nat (length views))
        :: flat_map encode_group
             (groups_of (take (Z.to_nat (wrap (Z.of_nat (length views))))
                              views)).
Proof.
  unfold SerializeCellInfo. rewrite foldl_serialize_cell.
  unfold push_back. by rewrite <- !app_assoc.
Qed.

(** X1: the serializer never clears the buffer it is given: serializing a
    second list into a buffer that holds a first one leaves the first
    encoding in place and writes the second one after it. *)
Theorem SerializeCellInfo_appends views1 views2 buf num_face_dofs1
    num_face_dofs2 :
  SerializeCellInfo views2 (SerializeCellInfo views1 buf num_face_dofs1)
                    num_face_dofs2
  = buf ++ SerializeCellInfo views1 [] num_face_dofs1
        ++ SerializeCellInfo views2 [] num_face_dofs2.
Proof.
  rewrite (SerializeCellInfo_unfold views2), (SerializeCellInfo_unfold views1 buf).
  rewrite !SerializeCellInfo_unfold. simpl. by rewrite <- !app_assoc.
Qed.

Lemma encode_cell_length cv :
  length (flat_map encode_group (groups_of_cell cv)) = encoded_size cv.
Proof.
  unfold groups_of_cell, encoded_size.
  induction (snd cv) as [|fv fvs IH]; [done|].
  simpl. rewrite length_app, IH. simpl. lia.
Qed.

Lemma encode_cells_length views :
  length (flat_map encode_group (groups_of views))
  = sum_list (map encoded_size views).
Proof.
  induction views as [|cv views IH]; [done|].
  unfold groups_of in *. simpl.
  by rewrite flat_map_app, length_app, IH, encode_cell_length.
Qed.

(** X2: the size of the buffer after serializing: two header entries, and
    for every face two entries and one per vertex. *)
Theorem SerializeCellInfo_length views buf num_face_dofs :
  Z.of_nat (length views) < int_half ->
  length (SerializeCellInfo views buf num_face_dofs)
  = (length buf + 2 + sum_list (map encoded_size views))%nat.
Proof.
  intros Hlen. rewrite SerializeCellInfo_encode by done.
  rewrite length_app. simpl. rewrite encode_cells_length. lia.
Qed.

Lemma SerializeCellInfo_length_witness :
  length (SerializeCellInfo [(5, [(0, [1; 2]); (1, [3; 4])]); (7, [])]
                            [9; 9] 8)
  = Nat.add (Nat.add (length [9; 9]) 2%nat)
      (sum_list (map encoded_size [(5, [(0, [1; 2]); (1, [3; 4])]); (7, [])])).
Proof.
  apply (SerializeCellInfo_length
           [(5, [(0, [1; 2]); (1, [3; 4])]); (7, [])] [9; 9] 8).
  unfold int_half. simpl. lia.
Defined.

(** ** Round trips *)

(** X3: the round trip for views that have faces, ids that differ from
    neighbour to neighbour, and non-negative ids and vertex ids: the decoder
    returns [num_face_dofs] and a vector that starts with the views that
    were serialized; as many value-initialised entries follow. *)
Theorem roundtrip_up_to_padding views num_face_dofs :
  Forall canonical_cell views ->
  adjacent_distinct (map fst views) ->
  Z.of_nat (length views) < int_half ->
  exists cell_views,
    DeSerializeCellInfo [] (SerializeCellInfo views [] num_face_dofs)
    = Some (cell_views, num_face_dofs)
    /\ take (length views) cell_views = views
    /\ drop (length views) cell_views = replicate (length views) empty_cell.
Proof.
  intros Hcan Hadj Hlen. rewrite DeSerialize_Serialize by done.
  eexists. split; [done|]. split.
  - by rewrite take_app_length.
  - by rewrite drop_app_length.
Qed.

Lemma roundtrip_up_to_padding_witness :
  exists cell_views,
    DeSerializeCellInfo []
      (SerializeCellInfo [(5, [(0, [1; 2]); (1, [3; 4])]); (7, [(2, [6])])]
                         [] 8)
    = Some (cell_views, 8)
    /\ take (length [(5, [(0, [1; 2]); (1, [3; 4])]); (7, [(2, [6])])])
            cell_views
       = [(5, [(0, [1; 2]); (1, [3; 4])]); (7, [(2, [6])])]
    /\ drop (length [(5, [(0, [1; 2]); (1, [3; 4])]); (7, [(2, [6])])])
            cell_views
       = replicate (length [(5, [(0, [1; 2]); (1, [3; 4])]); (7, [(2, [6])])])
                   empty_cell.
Proof.
  apply (roundtrip_up_to_padding
           [(5, [(0, [1; 2]); (1, [3; 4])]); (7, [(2, [6])])] 8).
  - repeat constructor; unfold int_half; simpl; (lia || discriminate).
  - simpl. split; [discriminate|exact I].
  - unfold int_half. simpl. lia.
Defined.





(** X5: two neighbours in the list with the same global id come back as one
    cell that has the faces of both. *)
Theorem equal_neighbours_are_merged gid faces1 faces2 num_face_dofs :
  canonical_cell (gid, faces1) -> canonical_cell (gid, faces2) ->
  DeSerializeCellInfo []
    (SerializeCellInfo [(gid, faces1); (gid, faces2)] [] num_face_dofs)
  = Some ([(gid, faces1 ++ faces2); empty_cell; empty_cell], num_face_dofs).
Proof.
  intros Hcell1 Hcell2.
  rewrite SerializeCellInfo_encode by (unfold int_half; simpl; lia).
  cbn [app].
  rewrite DeSerializeCellInfo_groups;
    [|simpl; lia
     |apply groups_of_well_formed;
      constructor; [done|constructor; [done|constructor]]].
  do 2 f_equal. unfold cells_of, groups_of. cbn [flat_map].
  rewrite app_nil_r, foldl_app.
  rewrite (absorb_cell (gid, faces1)); [|done|].
  - unfold groups_of_cell. simpl. by rewrite absorb_same_cell.
  - apply int_neg_marker_not_initial; [|apply marker_is_int].
    apply marker_negative, Hcell1.
Qed.

Lemma equal_neighbours_are_merged_witness :
  DeSerializeCellInfo []
    (SerializeCellInfo [(5, [(0, [1; 2])]); (5, [(1, [3; 4])])] [] 8)
  = Some ([(5, [(0, [1; 2])] ++ [(1, [3; 4])]); empty_cell; empty_cell], 8).
Proof.
  apply (equal_neighbours_are_merged 5 [(0, [1; 2])] [(1, [3; 4])] 8);
    repeat constructor; unfold int_half; simpl; (lia || discriminate).
Defined.

(** ** What the decoder accepts *)

Lemma decode_accepts_shape (n : nat) : forall body st,
  length body = n ->
  is_Some (decode body st) ->
  exists vertices groups,
    body = vertices ++ flat_map encode_group groups
    /\ Forall (λ vertex, 0 <= vertex) vertices
    /\ Forall (λ g : face_group,
                 marker_of g < 0 /\ Forall (λ vertex, 0 <= vertex) (snd g))
              groups.
Proof.
  induction n as [n IH] using lt_wf_ind. intros body st Hn Hsome.
  destruct body as [|entry rest].
  - exists [], []. by repeat split.
  - cbn [decode] in Hsome. destruct (decide (entry < 0)) as [Hneg|Hpos].
    + destruct (if decide (int_neg entry ≠ dc_last_cell st)
                then new_cell entry st else new_face st) as [st1|];
        [|by destruct Hsome].
      cbn [mbind option_bind] in Hsome.
      destruct rest as [|face_id rest]; [by destruct Hsome|].
      destruct (set_face_id face_id st1) as [st2|]; [|by destruct Hsome].
      cbn [mbind option_bind] in Hsome.
      destruct (IH (length rest) ltac:(simpl in Hn; lia) rest st2 eq_refl Hsome)
        as (vertices & groups & -> & Hverts & Hgroups).
      exists [], ((entry, face_id, vertices) :: groups).
      split; [done|]. split; [constructor|]. by constructor.
    + destruct (push_vertex entry st) as [st1|]; [|by destruct Hsome].
      cbn [mbind option_bind] in Hsome.
      destruct (IH (length rest) ltac:(simpl in Hn; lia) rest st1 eq_refl Hsome)
        as (vertices & groups & -> & Hverts & Hgroups).
      exists (entry :: vertices), groups.
      split; [done|]. split; [|done]. constructor; [lia|done].
Qed.

Lemma push_vertex_before_marker entry views last f v :
  push_vertex entry (Decoder views last (-1) f v) = None.
Proof. done. Qed.

Lemma encoded_markers_in_int groups :
  Forall in_int (flat_map encode_group groups) ->
  Forall (λ g : face_group, in_int (marker_of g)) groups.
Proof.
  induction groups as [|[[m face_id] vertices] groups IH]; intros Hint;
    [constructor|].
  simpl in Hint. inversion Hint as [|? ? Hm Hrest]; subst.
  inversion Hrest as [|? ? _ Hrest']; subst.
  apply Forall_app in Hrest' as [_ Hgroups].
  constructor; [done|by apply IH].
Qed.

(** X6: what the decoder accepts.  On a buffer of [int]s, decoded into an
    empty vector, the decoder returns exactly when the buffer is a header
    with a non-negative cell count followed by face groups: negative marker,
    face id, non-negative vertex ids.  A buffer without the two header
    entries, a negative count, a vertex id before the first marker or a
    marker in the last position make it fail. *)
Theorem DeSerializeCellInfo_accepts face_indices :
  Forall in_int face_indices ->
  is_Some (DeSerializeCellInfo [] face_indices)
  <-> exists num_face_dofs num_cells groups,
        face_indices
        = num_face_dofs :: num_cells :: flat_map encode_group groups
        /\ 0 <= num_cells
        /\ Forall well_formed_group groups.
Proof.
  intros Hint. split.
  - intros Hsome.
    destruct face_indices as [|num_face_dofs [|num_cells body]];
      [by destruct Hsome..|].
    rewrite DeSerializeCellInfo_header in Hsome.
    destruct (decide (0 <= num_cells)) as [Hn|]; [|by destruct Hsome].
    destruct (decode body _) as [st|] eqn:Hdecode; [|by destruct Hsome].
    destruct (decode_accepts_shape (length body) body _ eq_refl
                (mk_is_Some _ _ Hdecode))
      as (vertices & groups & -> & Hverts & Hgroups).
    destruct vertices as [|entry vertices].
    + exists num_face_dofs, num_cells, groups.
      split; [done|]. split; [done|].
      inversion Hint as [|? ? _ Hint1]; subst.
      inversion Hint1 as [|? ? _ Hint2]; subst.
      apply encoded_markers_in_int in Hint2.
      clear -Hgroups Hint2.
      induction Hgroups as [|[[m face_id] verts] groups [Hm Hv] _ IH];
        [constructor|].
      inversion Hint2; subst. constructor; [|by apply IH].
      unfold well_formed_group, marker_of in *. simpl in *. auto.
    + exfalso. inversion Hverts as [|? ? Hentry _]; subst.
      cbn [app decode] in Hdecode.
      destruct (decide (entry < 0)); [lia|].
      by rewrite push_vertex_before_marker in Hdecode.
  - intros (num_face_dofs & num_cells & groups & -> & Hn & Hgroups).
    by rewrite DeSerializeCellInfo_groups.
Qed.

Lemma DeSerializeCellInfo_accepts_witness :
  is_Some (DeSerializeCellInfo [] [8; 1; -6; 0; 1; 2; -6; 1; 3; 4])
  <-> exists num_face_dofs num_cells groups,
        [8; 1; -6; 0; 1; 2; -6; 1; 3; 4]
        = num_face_dofs :: num_cells :: flat_map encode_group groups
        /\ 0 <= num_cells
        /\ Forall well_formed_group groups.
Proof.
  apply (DeSerializeCellInfo_accepts [8; 1; -6; 0; 1; 2; -6; 1; 3; 4]).
  repeat constructor; unfold int_half; lia.
Defined.

(** ** Decoding into a vector that is not empty *)






(** ** The sweep buffer between polls and sweeps *)

Lemma test_requests_complete completed requests :
  Forall (request_complete completed) requests ->
  test_requests completed requests
  = (map (λ _ : MPI_Request, MPI_REQUEST_NULL) requests, true).
Proof.
  induction 1 as [|request requests Hreq _ IH]; [done|].
  simpl. destruct request as [|id]; simpl in *.
  - by rewrite IH.
  - by rewrite Hreq, IH.
Qed.

Lemma test_all_requests_complete completed message_request :
  Forall (Forall (request_complete completed)) message_request ->
  test_all_requests completed message_request
  = (all_null message_request, true).
Proof.
  induction 1 as [|requests message_request Hreqs _ IH]; [done|].
  simpl. by rewrite (test_requests_complete _ _ Hreqs), IH.
Qed.

Lemma test_requests_pending completed sent id untested :
  Forall (request_complete completed) sent ->
  completed id = false ->
  test_requests completed (sent ++ Request id :: untested)
  = (map (λ _ : MPI_Request, MPI_REQUEST_NULL) sent
       ++ Request id :: untested, false).
Proof.
  intros Hsent Hid.
  induction Hsent as [|request sent Hreq _ IH]; simpl.
  - by rewrite Hid.
  - destruct request as [|id']; simpl in *.
    + by rewrite IH.
    + by rewrite Hreq, IH.
Qed.

Lemma all_null_complete completed message_request :
  Forall (Forall (request_complete completed)) (all_null message_request).
Proof.
  unfold all_null.
  induction message_request as [|requests message_request IH];
    simpl; constructor; [|done].
  induction requests as [|request requests IHr]; simpl; by constructor.
Qed.

Section SweepBufferSweeps.
Context {F C : Type}.
Variable ClearSendPsi : F -> F.
Implicit Types sb : SweepBuffer F C.

(** X8: [Reset] is idempotent. *)
Theorem Reset_idempotent sb : Reset (Reset sb) = Reset sb.
Proof.
  unfold Reset. simpl. f_equal.
  - induction (prelocI_message_received sb) as [|flags l IH]; [done|].
    simpl. by rewrite length_replicate, IH.
  - induction (delayed_prelocI_message_received sb) as [|flags l IH]; [done|].
    simpl. by rewrite length_replicate, IH.
Qed.

(** X9: the call that finds every send complete leaves the null handle in
    every request slot (the effect of [MPI_Test] on a request that has
    completed). *)
Theorem complete_poll_nulls_requests completed sb :
  done_sending sb = false ->
  sends_complete completed sb ->
  deplocI_message_request (ClearDownstreamBuffers ClearSendPsi completed sb)
  = all_null (deplocI_message_request sb).
Proof.
  unfold ClearDownstreamBuffers, sends_complete. intros -> Hall.
  by rewrite (test_all_requests_complete _ _ Hall).
Qed.

(** X10: [Reset] does not put the requests back.  After the sends of a sweep
    have been found complete and the buffer has been reset, the next call
    finds nothing but null handles: whatever the transport reports, it
    declares the sends done and applies [ClearSendPsi] a second time. *)
Theorem poll_after_Reset_completes_at_once completed completed' sb :
  done_sending sb = false ->
  sends_complete completed sb ->
  done_sending
    (ClearDownstreamBuffers ClearSendPsi completed'
       (Reset (ClearDownstreamBuffers ClearSendPsi completed sb)))
  = true
  /\ fluds_
       (ClearDownstreamBuffers ClearSendPsi completed'
          (Reset (ClearDownstreamBuffers ClearSendPsi completed sb)))
     = ClearSendPsi (ClearSendPsi (fluds_ sb)).
Proof.
  intros Hnot Hall.
  pose proof (test_all_requests_complete _ _ Hall) as Htest.
  unfold sends_complete in Hall.
  unfold ClearDownstreamBuffers at 2 4. rewrite Hnot, Htest.
  unfold Reset, ClearDownstreamBuffers. simpl.
  by rewrite (test_all_requests_complete completed' _
                (all_null_complete completed' _)).
Qed.

(** X11: a call returns at the first request it finds incomplete: the
    requests before it have their handle set to null, the requests after it
    are not tested and keep their handle, and the sends are not declared
    done. *)
Theorem poll_stops_at_first_pending completed sb before sent id untested
    after :
  done_sending sb = false ->
  deplocI_message_request sb
  = before ++ (sent ++ Request id :: untested) :: after ->
  Forall (Forall (request_complete completed)) before ->
  Forall (request_complete completed) sent ->
  completed id = false ->
  deplocI_message_request (ClearDownstreamBuffers ClearSendPsi completed sb)
  = all_null before
      ++ (map (λ _ : MPI_Request, MPI_REQUEST_NULL) sent
            ++ Request id :: untested) :: after
  /\ done_sending (ClearDownstreamBuffers ClearSendPsi completed sb) = false
  /\ fluds_ (ClearDownstreamBuffers ClearSendPsi completed sb) = fluds_ sb.
Proof.
  intros Hnot Hreqs Hbefore Hsent Hid.
  unfold ClearDownstreamBuffers. rewrite Hnot, Hreqs.
  assert (test_all_requests completed
            (before ++ (sent ++ Request id :: untested) :: after)
          = (all_null before
               ++ (map (λ _ : MPI_Request, MPI_REQUEST_NULL) sent
                     ++ Request id :: untested) :: after, false)) as ->.
  { clear Hreqs. induction Hbefore as [|requests before Hr _ IH]; simpl.
    - by rewrite (test_requests_pending _ _ _ _ Hsent Hid).
    - by rewrite (test_requests_complete _ _ Hr), IH. }
  done.
Qed.

(** X12: polling touches nothing but [done_sending], the request handles
    and the FLUDS object: the other members and the number of requests per
    successor are what they were, after any number of calls. *)
Theorem poll_keeps_other_members calls : forall sb,
  data_initialized (poll ClearSendPsi calls sb) = data_initialized sb
  /\ upstream_data_initialized (poll ClearSendPsi calls sb)
     = upstream_data_initialized sb
  /\ prelocI_message_received (poll ClearSendPsi calls sb)
     = prelocI_message_received sb
  /\ delayed_prelocI_message_received (poll ClearSendPsi calls sb)
     = delayed_prelocI_message_received sb
  /\ EAGER_LIMIT (poll ClearSendPsi calls sb) = EAGER_LIMIT sb
  /\ max_num_mess (poll ClearSendPsi calls sb) = max_num_mess sb
  /\ num_groups_ (poll ClearSendPsi calls sb) = num_groups_ sb
  /\ num_angles_ (poll ClearSendPsi calls sb) = num_angles_ sb
  /\ comm_set (poll ClearSendPsi calls sb) = comm_set sb
  /\ map length (deplocI_message_request (poll ClearSendPsi calls sb))
     = map length (deplocI_message_request sb).
Proof.
  assert (Hlen1 : forall completed requests,
            length (fst (test_requests completed requests)) = length requests).
  { intros completed. induction requests as [|request requests IH]; [done|].
    simpl. destruct (MPI_Test completed request) as [request' []].
    - destruct (test_requests completed requests). simpl in *. by rewrite IH.
    - done. }
  assert (Hlen : forall completed message_request,
            map length (fst (test_all_requests completed message_request))
            = map length message_request).
  { intros completed.
    induction message_request as [|requests message_request IH]; [done|].
    simpl. pose proof (Hlen1 completed requests) as Hl.
    destruct (test_requests completed requests) as [requests' []].
    - destruct (test_all_requests completed message_request).
      simpl in *. by rewrite Hl, IH.
    - simpl in *. by rewrite Hl. }
  induction calls as [|completed calls IH]; intros sb; [done|].
  unfold poll in *. simpl.
  destruct (IH (ClearDownstreamBuffers ClearSendPsi completed sb))
    as (-> & -> & -> & -> & -> & -> & -> & -> & -> & ->).
  unfold ClearDownstreamBuffers.
  destruct (done_sending sb); [done|].
  pose proof (Hlen completed (deplocI_message_request sb)) as Hl.
  destruct (test_all_requests completed (deplocI_message_request sb)).
  simpl in *. by rewrite Hl.
Qed.
End SweepBufferSweeps.

Lemma complete_poll_nulls_requests_witness :
  deplocI_message_request
    (ClearDownstreamBuffers S (λ _ : nat, true)
       (mkSweepBuffer (F := nat) (C := unit) 0%nat 1%N 1%N tt
          false false false 0 0 [[Request 0; MPI_REQUEST_NULL]; [Request 1]]
          [] []))
  = all_null [[Request 0; MPI_REQUEST_NULL]; [Request 1]].
Proof.
  apply (complete_poll_nulls_requests S (λ _ : nat, true)
           (mkSweepBuffer (F := nat) (C := unit) 0%nat 1%N 1%N tt
              false false false 0 0
              [[Request 0; MPI_REQUEST_NULL]; [Request 1]] [] [])).
  - reflexivity.
  - repeat constructor.
Defined.

Lemma poll_after_Reset_completes_at_once_witness :
  fluds_
    (ClearDownstreamBuffers S (λ _ : nat, false)
       (Reset (ClearDownstreamBuffers S (λ _ : nat, true)
                 (mkSweepBuffer (F := nat) (C := unit) 0%nat 1%N 1%N tt
                    false false false 0 0 [[Request 0]; [Request 1]]
                    [[true]] []))))
  = S (S 0%nat).
Proof.
  refine (proj2 (poll_after_Reset_completes_at_once S (λ _ : nat, true)
                   (λ _ : nat, false)
                   (mkSweepBuffer (F := nat) (C := unit) 0%nat 1%N 1%N tt
                      false false false 0 0 [[Request 0]; [Request 1]]
                      [[true]] []) _ _)).
  - reflexivity.
  - repeat constructor.
Defined.

Lemma poll_stops_at_first_pending_witness :
  deplocI_message_request
    (ClearDownstreamBuffers S (λ id : nat, negb (Nat.eqb id 2))
       (mkSweepBuffer (F := nat) (C := unit) 0%nat 1%N 1%N tt
          false false false 0 0
          ([[Request 0]] ++ ([Request 1] ++ Request 2 :: [Request 3])
             :: [[Request 4]])
          [] []))
  = all_null [[Request 0]]
      ++ (map (λ _ : MPI_Request, MPI_REQUEST_NULL) [Request 1]
            ++ Request 2 :: [Request 3]) :: [[Request 4]].
Proof.
  refine (proj1 (poll_stops_at_first_pending S
                   (λ id : nat, negb (Nat.eqb id 2)) _
                   [[Request 0]] [Request 1] 2 [Request 3] [[Request 4]]
                   _ _ _ _ _)).
  - reflexivity.
  - reflexivity.
  - repeat constructor.
  - repeat constructor.
  - reflexivity.
Defined.

(** ** The loops of the beta pass, one by one *)

Lemma cell_loop_result NonLocalIncidentMapping spds items :
  forall csoi fl w,
    Forall (λ cell_g_index,
              is_Some (at_index (grid_cells_newbase spds) cell_g_index))
           items ->
    for_each (map_cell NonLocalIncidentMapping spds) csoi items fl w
    = Some (foldl (λ fl cell_g_index,
                     NonLocalIncidentMapping cell_g_index spds fl)
                  fl (newbase_items spds items), w).
Proof.
  unfold newbase_items.
  induction items as [|cell_g_index items IH]; intros csoi fl w Hitems; [done|].
  inversion Hitems as [|? ? [newbase Hcell] Hitems']; subst.
  cbn [for_each]. unfold mpi_bind at 1.
  unfold map_cell at 1. unfold mpi_bind, checked. rewrite Hcell.
  destruct newbase; unfold mpi_ret.
  - rewrite filter_cons_True by done. simpl. by apply IH.
  - rewrite filter_cons_False by (rewrite Hcell; discriminate). by apply IH.
Qed.

(** X13: the loop over the sweep order applies [NonLocalIncidentMapping] to
    the cells of type [CELL_NEWBASE], in sweep order, and to no other cell;
    it makes no call to the transport. *)
Theorem cell_loop_maps_newbase_cells NonLocalIncidentMapping spds items fl w :
  Forall (λ cell_g_index,
            is_Some (at_index (grid_cells_newbase spds) cell_g_index))
         items ->
  for_each (map_cell NonLocalIncidentMapping spds) 0 items fl w
  = Some (foldl (λ fl cell_g_index,
                   NonLocalIncidentMapping cell_g_index spds fl)
                fl (newbase_items spds items), w).
Proof. apply cell_loop_result. Qed.

Lemma cell_loop_maps_newbase_cells_witness :
  for_each (map_cell (λ cell_g_index _ fl,
                        mkFLUDS [] (cell_g_index
                                      :: deplocI_face_dof_count fl)
                                [] [] [] [])
                     example_spds)
           0 [0; 1; 0] example_fluds example_world
  = Some (foldl (λ fl cell_g_index,
                   mkFLUDS [] (cell_g_index :: deplocI_face_dof_count fl)
                           [] [] [] [])
                example_fluds (newbase_items example_spds [0; 1; 0]),
          example_world).
Proof.
  apply (cell_loop_maps_newbase_cells
           (λ cell_g_index _ fl,
              mkFLUDS [] (cell_g_index :: deplocI_face_dof_count fl)
                      [] [] [] [])
           example_spds [0; 1; 0] example_fluds example_world).
  repeat constructor; eexists; reflexivity.
Defined.

Lemma DeSerializeCellInfo_count cell_views face_indices result :
  DeSerializeCellInfo cell_views face_indices = Some result ->
  face_indices !! 0%nat = Some (snd result).
Proof.
  unfold DeSerializeCellInfo. intros Hdecode.
  destruct (face_indices !! 0%nat) as [num_face_dofs|]; [|done].
  destruct (face_indices !! 1%nat) as [num_cells|]; [|done].
  cbn [mbind option_bind] in Hdecode.
  destruct (decide (0 <= num_cells)); [|done].
  destruct (decode_at _ _ _ _) as [st|]; [|done].
  cbn [mbind option_bind] in Hdecode. by injection Hdecode as <-.
Qed.

Lemma receive_loop_result tag_index locs : forall prelocI views counts w,
  (prelocI + length locs <= length views)%nat ->
  (prelocI + length locs <= length counts)%nat ->
  (forall k, (k < length locs)%nat -> views !! (prelocI + k)%nat = Some []) ->
  messages_ready (int_add 101 tag_index) locs (inbox w) ->
  exists results,
    Forall2 decodes_to (arrivals (int_add 101 tag_index) locs (inbox w))
            results
    /\ for_each (receive_predecessor tag_index) prelocI locs (views, counts) w
       = Some ((take prelocI views ++ map fst results
                  ++ drop (prelocI + length locs) views,
                take prelocI counts ++ map snd results
                  ++ drop (prelocI + length locs) counts),
               mkWorld
                 (after_receives (int_add 101 tag_index) locs (inbox w))
                 (trace w ++ receive_phase (int_add 101 tag_index) locs)).
Proof.
  induction locs as [|locJ locs IH];
    intros prelocI views counts w Hviews Hcounts Hempty Hready.
  - exists []. split; [constructor|].
    simpl. unfold mpi_ret, after_receives, receive_phase. simpl.
    rewrite !Nat.add_0_r, !take_drop, app_nil_r. by destruct w.
  - simpl in Hviews, Hcounts.
    destruct Hready as [(face_indices & rest & Hbox & Hdecodes) Hready].
    destruct Hdecodes as [[cell_views num_face_dofs] Hdecode].
    destruct (lookup_lt_is_Some_2 counts prelocI) as [count Hcount]; [lia|].
    pose proof (Hempty 0%nat) as Hslot. rewrite Nat.add_0_r in Hslot.
    specialize (Hslot ltac:(simpl; lia)).
    cbn [for_each]. unfold mpi_bind at 1.
    rewrite (receive_predecessor_run _ _ _ _ _ _ _ _ _ _ _
               Hbox Hslot Hcount Hdecode).
    set (w1 := mkWorld _ _).
    destruct (IH (S prelocI) (<[prelocI := cell_views]> views)
                 (<[prelocI := num_face_dofs]> counts) w1)
      as (results & Hresults & Hrun).
    + rewrite length_insert. lia.
    + rewrite length_insert. lia.
    + intros k Hk. rewrite list_lookup_insert_ne by lia.
      replace (S prelocI + k)%nat with (prelocI + S k)%nat by lia.
      apply Hempty. simpl. lia.
    + done.
    + exists ((cell_views, num_face_dofs) :: results). split.
      * cbn [arrivals]. rewrite Hbox. constructor; [|done].
        split; [done|]. by apply (DeSerializeCellInfo_count [] _ _ Hdecode).
      * rewrite Hrun. subst w1. cbn [inbox trace].
        rewrite (take_S_r _ _ cell_views)
          by (apply list_lookup_insert_eq; lia).
        rewrite (take_S_r _ _ num_face_dofs)
          by (apply list_lookup_insert_eq; lia).
        rewrite !take_insert_ge by lia.
        rewrite !drop_insert_lt by lia.
        cbn [length]. rewrite Nat.add_succ_r.
        unfold after_receives, receive_phase. simpl.
        by rewrite <- !app_assoc.
Qed.

(** X14: a receive loop, on the vectors as the pass resizes them, leaves in
    the place of every predecessor the views decoded from that
    predecessor's message and the [num_face_dofs] the message starts with;
    it takes one message off the queue of each predecessor and makes one
    probe and one receive per predecessor. *)
Theorem receive_loop_stores_messages tag_index locs old_counts w :
  messages_ready (int_add 101 tag_index) locs (inbox w) ->
  exists results,
    Forall2 decodes_to (arrivals (int_add 101 tag_index) locs (inbox w))
            results
    /\ for_each (receive_predecessor tag_index) 0 locs
         (replicate (length locs) [], resize (length locs) 0 old_counts) w
       = Some ((map fst results, map snd results),
               mkWorld
                 (after_receives (int_add 101 tag_index) locs (inbox w))
                 (trace w ++ receive_phase (int_add 101 tag_index) locs)).
Proof.
  intros Hready.
  destruct (receive_loop_result tag_index locs 0%nat
              (replicate (length locs) []) (resize (length locs) 0 old_counts)
              w) as (results & Hresults & Hrun);
    [rewrite ?length_replicate, ?length_resize; simpl; lia..| |done|].
  { intros k Hk. by apply lookup_replicate_2. }
  exists results. split; [done|]. rewrite Hrun.
  rewrite !take_0, !drop_ge
    by (rewrite ?length_replicate, ?length_resize; simpl; lia).
  by rewrite !app_nil_r.
Qed.

Lemma receive_loop_stores_messages_witness :
  exists results,
    Forall2 decodes_to
      (arrivals (int_add 101 0) [9; 7] (inbox example_world)) results
    /\ for_each (receive_predecessor 0) 0 [9; 7]
         (replicate (length [9; 7]) [], resize (length [9; 7]) 0 [5])
         example_world
       = Some ((map fst results, map snd results),
               mkWorld
                 (after_receives (int_add 101 0) [9; 7] (inbox example_world))
                 (trace example_world ++ receive_phase (int_add 101 0) [9; 7])).
Proof.
  apply (receive_loop_stores_messages 0 [9; 7] [5] example_world).
  split;
    [ exists [3; 0], []; split; [reflexivity|]; eexists; vm_compute; reflexivity
    | split;
      [ exists [4; 1; -3; 0; 1; 2], [];
        split; [reflexivity|]; eexists; vm_compute; reflexivity
      | exact I ] ].
Defined.

(** ** The beta pass as a whole *)

Section BetaPassResult.
Variable NonLocalIncidentMapping : Z -> SPDS -> FLUDS -> FLUDS.

(** X15: what the pass leaves and what [NonLocalIncidentMapping] works on.
    The mapping is applied, for the [CELL_NEWBASE] cells in sweep order, to
    an object whose outgoing views are already cleared for every successor,
    whose incoming views are the views decoded from the messages of the
    predecessors (delayed and ordinary, in the order of the dependency
    lists) and whose incoming face-dof counts are the first entries of
    those messages; the pass returns the outcome without its views. *)
Theorem beta_pass_result spds tag_index fl w :
  ready_for_beta spds tag_index fl w ->
  exists delayed_results results,
    Forall2 decodes_to
      (arrivals (int_add 101 tag_index) (delayed_location_dependencies spds)
                (inbox w))
      delayed_results
    /\ Forall2 decodes_to
         (arrivals (int_add 101 tag_index) (location_dependencies spds)
            (after_receives (int_add 101 tag_index)
               (delayed_location_dependencies spds) (inbox w)))
         results
    /\ InitializeBetaElements NonLocalIncidentMapping spds tag_index fl w
       = Some (without_views
                 (foldl (λ fl cell_g_index,
                           NonLocalIncidentMapping cell_g_index spds fl)
                    (mkFLUDS
                       (replicate (length (location_successors spds)) []
                          ++ drop (length (location_successors spds))
                                  (deplocI_cell_views fl))
                       (deplocI_face_dof_count fl)
                       (map fst results) (map snd results)
                       (map fst delayed_results) (map snd delayed_results))
                    (newbase_items spds (spls_item_id spds))),
               mkWorld
                 (after_receives (int_add 101 tag_index)
                    (delayed_location_dependencies spds
                       ++ location_dependencies spds) (inbox w))
                 (trace w ++ beta_trace spds tag_index fl)).
Proof.
  intros Hready.
  destruct (InitializeBetaElements_run NonLocalIncidentMapping spds tag_index
              fl w Hready) as (fl' & Hrun & _).
  destruct Hready as (Hviews & Hdofs & Hpre & Hdpre & Hready & Hcells).
  apply messages_ready_app in Hready as [Hready1 Hready2].
  pose proof Hrun as Hrun0.
  revert Hrun. unfold InitializeBetaElements at 1. rewrite resize_nil.
  set (fr0 := mkFrame fl _ _).
  destruct (send_loop_run (is_delayed_successor spds) tag_index
              (send_delayed spds tag_index) (λ _ _ _, eq_refl)
              (location_successors spds) 0%nat fr0 w)
    as (fr1 & Hrun1 & Hlv1 & Hlr1 & Hlb1 & Hrest1 & Hout1 & Hin1);
    [subst fr0; simpl; rewrite ?length_replicate; lia..|].
  unfold mpi_bind at 1. rewrite Hrun1. clear Hrun1.
  assert (Hd1 : delayed_prelocI_cell_views (this fr1) = []).
  { apply (f_equal delayed_prelocI_cell_views) in Hrest1.
    simpl in Hrest1. by rewrite Hrest1. }
  assert (Hp1 : prelocI_cell_views (this fr1) = []).
  { apply (f_equal prelocI_cell_views) in Hrest1.
    simpl in Hrest1. by rewrite Hrest1. }
  assert (Hdof1 : deplocI_face_dof_count (this fr1)
                  = deplocI_face_dof_count fl).
  { apply (f_equal deplocI_face_dof_count) in Hrest1.
    simpl in Hrest1. by rewrite Hrest1. }
  rewrite Hd1, Hp1, !resize_nil.
  set (w1 := mkWorld _ _).
  destruct (receive_loop_result tag_index (delayed_location_dependencies spds)
              0%nat
              (replicate (length (delayed_location_dependencies spds)) [])
              (resize (length (delayed_location_dependencies spds)) 0
                      (delayed_prelocI_face_dof_count (this fr1))) w1)
    as (delayed_results & Hdelayed & Hrun2);
    [simpl; rewrite ?length_replicate, ?length_resize; try lia..| |done|].
  { intros k Hk. simpl. by apply lookup_replicate_2. }
  rewrite !take_0, !drop_ge, !app_nil_r in Hrun2
    by (rewrite ?length_replicate, ?length_resize; simpl; lia).
  cbn [app] in Hrun2.
  unfold mpi_bind at 1. rewrite Hrun2. clear Hrun2.
  set (w2 := mkWorld _ _).
  destruct (receive_loop_result tag_index (location_dependencies spds) 0%nat
              (replicate (length (location_dependencies spds)) [])
              (resize (length (location_dependencies spds)) 0
                      (prelocI_face_dof_count (this fr1))) w2)
    as (results & Hresults & Hrun3);
    [simpl; rewrite ?length_replicate, ?length_resize; try lia..| |done|].
  { intros k Hk. simpl. by apply lookup_replicate_2. }
  rewrite !take_0, !drop_ge, !app_nil_r in Hrun3
    by (rewrite ?length_replicate, ?length_resize; simpl; lia).
  cbn [app] in Hrun3.
  unfold mpi_bind at 1. rewrite Hrun3. clear Hrun3.
  set (w3 := mkWorld _ _).
  set (fr3 := mkFrame _ _ _).
  destruct (send_loop_run (λ locJ, negb (is_delayed_successor spds locJ))
              tag_index (send_ordinary spds tag_index)
              (send_ordinary_body spds tag_index)
              (location_successors spds) 0%nat fr3 w3)
    as (fr4 & Hrun4 & Hlv4 & Hlr4 & Hlb4 & Hrest4 & Hout4 & Hin4);
    [subst fr3 fr0; simpl in *; rewrite ?length_replicate in *;
     rewrite ?Hdof1; lia..|].
  unfold mpi_bind at 1. rewrite Hrun4. clear Hrun4.
  set (w4 := mkWorld _ _).
  destruct (wait_loop_run (location_successors spds) 0%nat
              (send_requests fr4) w4) as (requests5 & Hrun5).
  { intros k Hk. simpl.
    destruct (lookup_lt_is_Some_2 (location_successors spds) k Hk)
      as [locJ HlocJ].
    pose proof (Hin4 k locJ HlocJ) as Hk4. pose proof (Hin1 k locJ HlocJ) as Hk1.
    simpl in Hk4, Hk1.
    destruct (is_delayed_successor spds locJ); simpl in Hk4.
    - unfold frame_slot in Hk4, Hk1. subst fr3. simpl in Hk4.
      injection Hk4 as _ Hreq4 _. injection Hk1 as _ Hreq1 _.
      by rewrite Hreq4, Hreq1.
    - unfold frame_slot in Hk4. by injection Hk4 as _ Hreq4 _. }
  unfold mpi_bind at 1. rewrite Hrun5. clear Hrun5.
  unfold mpi_bind at 1, emit at 1.
  set (w5 := mkWorld _ _).
  unfold mpi_bind.
  rewrite (cell_loop_result NonLocalIncidentMapping spds (spls_item_id spds)
             0%nat (this fr4) w5 Hcells).
  unfold mpi_ret. intros Hrun.
  exists delayed_results, results. split; [exact Hdelayed|].
  split; [exact Hresults|].
  assert (Hv4 : deplocI_cell_views (this fr4)
                = replicate (length (location_successors spds)) []
                    ++ drop (length (location_successors spds))
                            (deplocI_cell_views fl)).
  { apply list_eq. intros j.
    destruct (decide (j < length (location_successors spds))%nat) as [Hj|Hj].
    - rewrite lookup_app_l by (by rewrite length_replicate).
      rewrite lookup_replicate_2 by done.
      destruct (lookup_lt_is_Some_2 (location_successors spds) j Hj)
        as [locJ HlocJ].
      pose proof (Hin4 j locJ HlocJ) as Hj4.
      pose proof (Hin1 j locJ HlocJ) as Hj1.
      simpl in Hj4, Hj1.
      destruct (is_delayed_successor spds locJ); simpl in Hj4.
      + unfold frame_slot in Hj4, Hj1. subst fr3. simpl in Hj4.
        injection Hj4 as Hview4 _ _. injection Hj1 as Hview1 _ _.
        by rewrite Hview4, Hview1.
      + unfold frame_slot in Hj4. by injection Hj4 as Hview4 _ _.
    - rewrite lookup_app_r by (rewrite length_replicate; lia).
      rewrite length_replicate, lookup_drop.
      replace (length (location_successors spds)
               + (j - length (location_successors spds)))%nat with j by lia.
      pose proof (Hout4 j ltac:(simpl; lia)) as Hj4.
      pose proof (Hout1 j ltac:(simpl; lia)) as Hj1.
      unfold frame_slot in Hj4, Hj1. subst fr3 fr0. simpl in Hj4, Hj1.
      injection Hj4 as Hview4 _ _. injection Hj1 as Hview1 _ _.
      by rewrite Hview4, Hview1. }
  assert (Hthis : this fr4
                  = mkFLUDS
                      (replicate (length (location_successors spds)) []
                         ++ drop (length (location_successors spds))
                                 (deplocI_cell_views fl))
                      (deplocI_face_dof_count fl)
                      (map fst results) (map snd results)
                      (map fst delayed_results) (map snd delayed_results)).
  { rewrite <- Hv4, <- Hdof1. subst fr3. simpl in Hrest4.
    destruct (this fr4). simpl in *. by injection Hrest4 as -> -> -> -> ->. }
  rewrite Hrun0. injection Hrun as <- _. by rewrite Hthis.
Qed.

Lemma after_receives_queue tag locs : forall box source tag',
  after_receives tag locs box source tag'
  = if decide (tag' = tag)
    then drop (count_occ Z.eq_dec locs source) (box source tag')
    else box source tag'.
Proof.
  unfold after_receives.
  induction locs as [|locJ locs IH]; intros box source tag'; simpl.
  - by destruct (decide (tag' = tag)).
  - rewrite IH. unfold pop_message.
    destruct (decide (tag' = tag)) as [->|Htag].
    + destruct (Z.eq_dec locJ source) as [->|Hloc].
      * rewrite decide_True by done.
        destruct (box source tag) as [|m queue]; simpl; [|done].
        by rewrite drop_nil.
      * rewrite decide_False; [done|]. intros [-> _]. done.
    + rewrite decide_False; [done|]. intros [_ ->]. done.
Qed.

(** X16: the pass takes from the queues of arrived messages one message
    per receive, from the queue of the predecessor it receives from and
    under its own tag; the messages of other sources and all messages under
    other tags are left where they are. *)
Theorem beta_pass_consumes_one_message_per_receive spds tag_index fl w :
  ready_for_beta spds tag_index fl w ->
  exists fl' w',
    InitializeBetaElements NonLocalIncidentMapping spds tag_index fl w
    = Some (fl', w')
    /\ forall source tag,
         inbox w' source tag
         = if decide (tag = int_add 101 tag_index)
           then drop (count_occ Z.eq_dec
                        (delayed_location_dependencies spds
                           ++ location_dependencies spds) source)
                     (inbox w source tag)
           else inbox w source tag.
Proof.
  intros Hready.
  destruct (InitializeBetaElements_run NonLocalIncidentMapping spds tag_index
              fl w Hready) as (fl' & Hrun & _).
  eexists fl', _. split; [exact Hrun|].
  intros source tag. cbn [inbox]. apply after_receives_queue.
Qed.

Lemma send_phase_well_addressed spds tag_index fl selected locs :
  forall deplocI,
    (forall k locJ, locs !! k = Some locJ ->
       location_successors spds !! (deplocI + k)%nat = Some locJ) ->
    Forall (well_addressed spds tag_index fl)
           (send_phase selected (int_add 101 tag_index) (sent_buffer fl)
                       deplocI locs).
Proof.
  induction locs as [|locJ locs IH]; intros deplocI Hlocs; [constructor|].
  cbn [send_phase]. apply Forall_app. split.
  - pose proof (Hlocs 0%nat locJ eq_refl) as HlocJ.
    rewrite Nat.add_0_r in HlocJ.
    destruct (selected locJ); [|constructor].
    constructor; [by repeat split|]. constructor; [|constructor].
    simpl. by apply lookup_lt_Some in HlocJ.
  - apply IH. intros k locJ' Hk.
    replace (S deplocI + k)%nat with (deplocI + S k)%nat by lia.
    by apply Hlocs.
Qed.

Lemma receive_phase_well_addressed spds tag_index fl locs :
  (forall locJ, locJ ∈ locs ->
     locJ ∈ delayed_location_dependencies spds ++ location_dependencies spds) ->
  Forall (well_addressed spds tag_index fl)
         (receive_phase (int_add 101 tag_index) locs).
Proof.
  induction locs as [|locJ locs IH]; intros Hlocs; [constructor|].
  simpl. constructor; [|constructor].
  - split; [done|]. apply Hlocs. by left.
  - split; [done|]. apply Hlocs. by left.
  - apply IH. intros locJ' Hin. apply Hlocs. by right.
Qed.

Lemma wait_phase_well_addressed spds tag_index fl :
  Forall (well_addressed spds tag_index fl)
         (wait_phase (length (location_successors spds))).
Proof.
  unfold wait_phase. apply List.Forall_forall. intros e He.
  apply in_map_iff in He as (request & <- & Hin).
  apply in_seq in Hin. simpl. lia.
Qed.

(** X17: every call of the pass is addressed as the pass has it: a send
    goes to the successor of its index with the serialized views of that
    index, a probe or receive names a predecessor, all of them carry the tag
    [101 + tag_index], and the waits and releases name a successor's
    index. *)
Theorem beta_pass_calls_are_well_addressed spds tag_index fl w :
  ready_for_beta spds tag_index fl w ->
  exists fl' w',
    InitializeBetaElements NonLocalIncidentMapping spds tag_index fl w
    = Some (fl', w')
    /\ trace w' = trace w ++ beta_trace spds tag_index fl
    /\ Forall (well_addressed spds tag_index fl)
              (beta_trace spds tag_index fl).
Proof.
  intros Hready.
  destruct (InitializeBetaElements_run NonLocalIncidentMapping spds tag_index
              fl w Hready) as (fl' & Hrun & _).
  eexists fl', _. split; [exact Hrun|]. split; [done|].
  unfold beta_trace, delayed_send_phase, ordinary_send_phase.
  repeat (apply Forall_app; split).
  - by apply send_phase_well_addressed.
  - apply receive_phase_well_addressed. intros locJ Hin.
    apply elem_of_app. by left.
  - apply receive_phase_well_addressed. intros locJ Hin.
    apply elem_of_app. by right.
  - by apply send_phase_well_addressed.
  - apply wait_phase_well_addressed.
  - by repeat constructor.
Qed.
Lemma send_successor_inbox tag_index deplocI locJ fr w fr' w' :
  send_successor tag_index deplocI locJ fr w = Some (fr', w') ->
  inbox w' = inbox w.
Proof.
  unfold send_successor, mpi_bind, checked, emit, mpi_ret.
  destruct (deplocI_cell_views (this fr) !! deplocI); [|done].
  destruct (deplocI_face_dof_count (this fr) !! deplocI); [|done].
  destruct (multi_face_indices fr !! deplocI); [|done].
  by intros [= _ <-].
Qed.

Lemma for_each_inbox {St} (body : nat -> Z -> St -> mpi St) :
  (forall i locJ s w s' w',
     body i locJ s w = Some (s', w') -> inbox w' = inbox w) ->
  forall locs i s w s' w',
    for_each body i locs s w = Some (s', w') -> inbox w' = inbox w.
Proof.
  intros Hbody. induction locs as [|locJ locs IH]; intros i s w s' w' Hrun.
  { by injection Hrun as _ <-. }
  cbn [for_each] in Hrun. unfold mpi_bind in Hrun.
  destruct (body i locJ s w) as [[s1 w1]|] eqn:Hstep; [|done].
  rewrite (IH _ _ _ _ _ Hrun). by eapply Hbody.
Qed.

Lemma receive_predecessor_pops tag_index prelocI locJ s w s' w' :
  receive_predecessor tag_index prelocI locJ s w = Some (s', w') ->
  inbox w locJ (int_add 101 tag_index) ≠ []
  /\ inbox w' = pop_message locJ (int_add 101 tag_index) (inbox w).
Proof.
  unfold receive_predecessor, mpi_bind, probe_and_receive, checked, mpi_ret.
  destruct (inbox w locJ (int_add 101 tag_index)) as [|face_indices rest];
    [done|].
  destruct (fst s !! prelocI) as [cell_views|]; [|done].
  destruct (snd s !! prelocI); [|done].
  destruct (DeSerializeCellInfo cell_views face_indices) as [[? ?]|]; [|done].
  by intros [= _ <-].
Qed.

Lemma receive_loop_pops tag_index source locs : forall prelocI s w s' w',
  for_each (receive_predecessor tag_index) prelocI locs s w = Some (s', w') ->
  length (inbox w source (int_add 101 tag_index))
  = (count_occ Z.eq_dec locs source
     + length (inbox w' source (int_add 101 tag_index)))%nat.
Proof.
  induction locs as [|locJ locs IH]; intros prelocI s w s' w' Hrun.
  { by injection Hrun as _ <-. }
  cbn [for_each] in Hrun. unfold mpi_bind in Hrun.
  destruct (receive_predecessor tag_index prelocI locJ s w)
    as [[s1 w1]|] eqn:Hstep; [|done].
  apply receive_predecessor_pops in Hstep as [Harrived Hbox].
  apply IH in Hrun. rewrite Hbox in Hrun. unfold pop_message in Hrun.
  cbn [count_occ].
  destruct (Z.eq_dec locJ source) as [->|Hother].
  - destruct (decide (source = source /\ int_add 101 tag_index
                                        = int_add 101 tag_index))
      as [_|Hno]; [|by destruct Hno].
    destruct (inbox w source (int_add 101 tag_index)); [done|].
    simpl in *. lia.
  - destruct (decide (source = locJ /\ int_add 101 tag_index
                                      = int_add 101 tag_index))
      as [[-> _]|_]; [done|]. lia.
Qed.

(** X18: the pass does not return before it has found a message of every
    predecessor: when it returns, every source had as many messages under
    the tag [101 + tag_index] as the two lists of dependencies name it. *)
Theorem beta_pass_returns_only_after_arrivals spds tag_index fl w source :
  is_Some (InitializeBetaElements NonLocalIncidentMapping spds tag_index fl w)
  -> (count_occ Z.eq_dec
        (delayed_location_dependencies spds ++ location_dependencies spds)
        source
      <= length (inbox w source (int_add 101 tag_index)))%nat.
Proof.
  intros Hsome. unfold InitializeBetaElements in Hsome.
  unfold mpi_bind at 1 in Hsome.
  destruct (for_each (send_delayed spds tag_index) 0
              (location_successors spds) _ w)
    as [[fr1 w1]|] eqn:Hrun1; [|by destruct Hsome].
  apply for_each_inbox in Hrun1.
  2:{ intros i locJ fr w0 fr' w0'. unfold send_delayed.
      destruct (is_delayed_successor spds locJ).
      - apply send_successor_inbox.
      - by intros [= _ <-]. }
  unfold mpi_bind at 1 in Hsome.
  destruct (for_each (receive_predecessor tag_index) 0
              (delayed_location_dependencies spds) _ w1)
    as [[[delayed_views delayed_count] w2]|] eqn:Hrun2; [|by destruct Hsome].
  apply (receive_loop_pops tag_index source) in Hrun2.
  unfold mpi_bind at 1 in Hsome.
  destruct (for_each (receive_predecessor tag_index) 0
              (location_dependencies spds) _ w2)
    as [[[views count] w3]|] eqn:Hrun3; [|by destruct Hsome].
  apply (receive_loop_pops tag_index source) in Hrun3.
  rewrite count_occ_app, <- Hrun1. lia.
Qed.
End BetaPassResult.

Lemma beta_pass_result_witness :
  exists delayed_results results,
    Forall2 decodes_to
      (arrivals (int_add 101 0) (delayed_location_dependencies example_spds)
                (inbox example_world))
      delayed_results
    /\ Forall2 decodes_to
         (arrivals (int_add 101 0) (location_dependencies example_spds)
            (after_receives (int_add 101 0)
               (delayed_location_dependencies example_spds)
               (inbox example_world)))
         results
    /\ InitializeBetaElements (λ _ _ fl, fl) example_spds 0 example_fluds
                              example_world
       = Some (without_views
                 (foldl (λ fl cell_g_index, fl)
                    (mkFLUDS
                       (replicate (length (location_successors example_spds))
                                  []
                          ++ drop (length (location_successors example_spds))
                                  (deplocI_cell_views example_fluds))
                       (deplocI_face_dof_count example_fluds)
                       (map fst results) (map snd results)
                       (map fst delayed_results) (map snd delayed_results))
                    (newbase_items example_spds (spls_item_id example_spds))),
               mkWorld
                 (after_receives (int_add 101 0)
                    (delayed_location_dependencies example_spds
                       ++ location_dependencies example_spds)
                    (inbox example_world))
                 (trace example_world ++ beta_trace example_spds 0
                                                    example_fluds)).
Proof.
  apply (beta_pass_result (λ _ _ fl, fl) example_spds 0 example_fluds
           example_world).
  example_is_ready.
Defined.

Lemma beta_pass_consumes_one_message_per_receive_witness :
  exists fl' w',
    InitializeBetaElements (λ _ _ fl, fl) example_spds 0 example_fluds
                           example_world
    = Some (fl', w')
    /\ forall source tag,
         inbox w' source tag
         = if decide (tag = int_add 101 0)
           then drop (count_occ Z.eq_dec
                        (delayed_location_dependencies example_spds
                           ++ location_dependencies example_spds) source)
                     (inbox example_world source tag)
           else inbox example_world source tag.
Proof.
  apply (beta_pass_consumes_one_message_per_receive (λ _ _ fl, fl)
           example_spds 0 example_fluds example_world).
  example_is_ready.
Defined.

Lemma beta_pass_calls_are_well_addressed_witness :
  exists fl' w',
    InitializeBetaElements (λ _ _ fl, fl) example_spds 0 example_fluds
                           example_world
    = Some (fl', w')
    /\ trace w' = trace example_world ++ beta_trace example_spds 0 example_fluds
    /\ Forall (well_addressed example_spds 0 example_fluds)
              (beta_trace example_spds 0 example_fluds).
Proof.
  apply (beta_pass_calls_are_well_addressed (λ _ _ fl, fl) example_spds 0
           example_fluds example_world).
  example_is_ready.
Defined.

Lemma beta_pass_returns_only_after_arrivals_witness :
  is_Some (InitializeBetaElements (λ _ _ fl, fl) example_spds 0 example_fluds
             example_world)
  /\ (count_occ Z.eq_dec
        (delayed_location_dependencies example_spds
           ++ location_dependencies example_spds) 7%Z
      <= length (inbox example_world 7%Z (int_add 101 0)%Z))%nat.
Proof.
  assert (Hreturns : is_Some (InitializeBetaElements (λ _ _ fl, fl)
                                example_spds 0 example_fluds example_world))
    by (vm_compute; by eexists).
  split; [exact Hreturns|].
  exact (beta_pass_returns_only_after_arrivals (λ _ _ fl, fl) example_spds 0
           example_fluds example_world 7 Hreturns).
Defined.

(** ** The number of global degrees of freedom *)

Lemma wrap_congruent z : exists k, wrap z = z + k * int_modulus.
Proof.
  exists (- ((z + int_half) / int_modulus)).
  unfold wrap, int_half, int_modulus. Z.div_mod_to_equations. lia.
Qed.

(** X19: [GetNumGlobalDOFs] multiplies in 32 bits: it returns the number of
    cells times the number of unknowns per cell reduced modulo 2^32, which
    is the product itself exactly when the product is below 2^32. *)
Theorem GetNumGlobalDOFs_wraps total_unknown_structure_size
    global_number_of_cells :
  0 <= total_unknown_structure_size ->
  0 <= global_number_of_cells ->
  GetNumGlobalDOFs total_unknown_structure_size global_number_of_cells
  = (global_number_of_cells * total_unknown_structure_size) mod int_modulus
  /\ (GetNumGlobalDOFs total_unknown_structure_size global_number_of_cells
      = global_number_of_cells * total_unknown_structure_size
      <-> global_number_of_cells * total_unknown_structure_size
          < int_modulus).
Proof.
  intros Hsize Hcells.
  assert (GetNumGlobalDOFs total_unknown_structure_size global_number_of_cells
          = (global_number_of_cells * total_unknown_structure_size)
              mod int_modulus) as Heq.
  { unfold GetNumGlobalDOFs, to_unsigned_int.
    rewrite Z.mul_mod_idemp_l, Z.mul_mod_idemp_r by done.
    destruct (wrap_congruent global_number_of_cells) as [k ->].
    rewrite Z.mul_add_distr_r.
    replace (k * int_modulus * total_unknown_structure_size)
      with (k * total_unknown_structure_size * int_modulus) by lia.
    apply Z_mod_plus_full. }
  split; [done|]. rewrite Heq.
  assert (0 <= global_number_of_cells * total_unknown_structure_size)
    by (apply Z.mul_nonneg_nonneg; lia).
  assert (0 < int_modulus) by done.
  split.
  - intros Hmod. rewrite <- Hmod. by apply Z.mod_pos_bound.
  - intros Hsmall. apply Z.mod_small. lia.
Qed.

Lemma GetNumGlobalDOFs_wraps_witness :
  GetNumGlobalDOFs 65536 65536 = (65536 * 65536) mod int_modulus
  /\ (GetNumGlobalDOFs 65536 65536 = 65536 * 65536
      <-> 65536 * 65536 < int_modulus).
Proof. apply (GetNumGlobalDOFs_wraps 65536 65536); lia. Defined.
